(** * SuspiciousNetNeighbors: a shallow embedding of the discovery engine

    The Python script [SuspiciousNetNeighbors.py] reads the ARP cache
    ([arp -a]), matches the hardware addresses against a table of vendor
    prefixes and, when nothing matches, pings a /24 to populate the cache and
    tries again.  The functions below follow the script one by one and keep
    its names.

    Conventions.
    - A Python [str] is a [list ascii]: the characters are the code points
      0..255.  Character tests ([isspace], line boundaries, [lower]) are those
      of Python on that range.
    - A subprocess call that raises (command missing, non-zero exit status
      under [check=True], undecodable output) is [Failed]; every call site
      of the script catches it.
    - A function whose body sits in [try: ... except Exception: return None]
      returns an [option]. *)

From Stdlib Require Import Ascii String List Bool Arith ZArith Lia.
From Stdlib Require Import Permutation DecimalString DecimalNat DecimalN.
Import ListNotations.

Set Implicit Arguments.

(** ** Strings *)

Definition str := list ascii.

(** A string literal of the script. *)
Definition py (s : string) : str := list_ascii_of_string s.

Definition code (c : ascii) : nat := nat_of_ascii c.

Definition between (lo hi : nat) (c : ascii) : bool :=
  (lo <=? code c) && (code c <=? hi).

(** [[0-9]] *)
Definition is_digit (c : ascii) : bool := between 48 57 c.

(** [[0-9a-fA-F]] *)
Definition is_hex (c : ascii) : bool :=
  is_digit c || between 97 102 c || between 65 70 c.

(** [[0-9A-Fa-f:-]] *)
Definition is_mac_char (c : ascii) : bool :=
  is_hex c || Ascii.eqb c ":" || Ascii.eqb c "-".

(** [\s] on a [str] pattern: the characters for which [str.isspace] holds. *)
Definition is_space (c : ascii) : bool :=
  between 9 13 c || between 28 32 c || (code c =? 133) || (code c =? 160).

(** [[. ]] *)
Definition is_dot_or_blank (c : ascii) : bool :=
  Ascii.eqb c "." || Ascii.eqb c " ".

(** [str.lower] on one character: A-Z, and the upper-case letters of the
    Latin-1 block (all of 192..222 but the multiplication sign 215). *)
Definition lower_char (c : ascii) : ascii :=
  if between 65 90 c || (between 192 222 c && negb (code c =? 215))
  then ascii_of_nat (code c + 32) else c.

Definition lower (s : str) : str := map lower_char s.

(** [s.replace(a, b)] for single characters. *)
Definition replace_char (a b : ascii) (s : str) : str :=
  map (fun c => if Ascii.eqb c a then b else c) s.

(** [s.startswith(p)] *)
Fixpoint startswith (s p : str) {struct p} : bool :=
  match p, s with
  | [], _ => true
  | _ :: _, [] => false
  | a :: p', b :: s' => Ascii.eqb a b && startswith s' p'
  end.

(** [needle in s] *)
Fixpoint contains (s needle : str) : bool :=
  startswith s needle ||
  match s with
  | [] => false
  | _ :: s' => contains s' needle
  end.

(** [s.split(sep)] for a single-character separator: never empty, one more
    part than there are separators. *)
Fixpoint split (sep : ascii) (s : str) : list str :=
  match s with
  | [] => [[]]
  | c :: s' =>
      if Ascii.eqb c sep then [] :: split sep s'
      else match split sep s' with
           | [] => [[c]]
           | p :: ps => (c :: p) :: ps
           end
  end.

(** [sep.join(parts)] *)
Fixpoint join (sep : str) (parts : list str) : str :=
  match parts with
  | [] => []
  | [p] => p
  | p :: ps => p ++ sep ++ join sep ps
  end.

(** The line boundaries of [str.splitlines] below code point 256. *)
Definition is_linebreak (c : ascii) : bool :=
  between 10 13 c || between 28 30 c || (code c =? 133).

(** [s.splitlines()]: [cur] is the line being read, reversed.  A carriage
    return followed by a line feed is one boundary; the text after the last
    boundary is a line only when it is not empty. *)
Fixpoint splitlines_from (cur : str) (s : str) : list str :=
  match s with
  | [] => match cur with [] => [] | _ => [rev cur] end
  | c :: s' =>
      if is_linebreak c then
        rev cur ::
          match s' with
          | d :: s'' =>
              if (code c =? 13) && (code d =? 10)
              then splitlines_from [] s''
              else splitlines_from [] s'
          | [] => []
          end
      else splitlines_from (c :: cur) s'
  end.

Definition splitlines (s : str) : list str := splitlines_from [] s.

(** [str(n)] for a natural number. *)
Definition str_of_nat (n : nat) : str :=
  py (NilEmpty.string_of_uint (Nat.to_uint n)).

(** ** MAC matching (lines 40-63 of the script) *)

(** [_norm]: [re.sub(r'[^0-9a-fA-F]', '', mac).lower()] *)
Definition _norm (mac : str) : str := lower (filter is_hex mac).

(** The test of line 61. *)
Definition prefix_matches (mac pref : str) : bool :=
  startswith (_norm mac) (_norm pref).

(** A prefix table: a dict literal, iterated in insertion order. *)
Definition rules := list (str * str).

Definition mac_device_map : rules :=
  [ (py "94:83:c4", py "GL Technologies");
    (py "28:cd:c1", py "RaspberryPi");
    (py "2c:cf:67", py "RaspberryPi");
    (py "88:a2:9e", py "RaspberryPi");
    (py "8c:1f:64:34:a", py "RaspberryPi");
    (py "d8:3a:dd", py "RaspberryPi");
    (py "dc:a6:32", py "RaspberryPi");
    (py "e4:5f:01", py "RaspberryPi");
    (py "f0:40:af:9", py "RaspberryPi");
    (py "0a:bc:de:f0:12:34", py "Test") ].

(** The inner loop of lines 60-63: the device of the first rule whose
    prefix matches, where the loop breaks. *)
Fixpoint classify (mac : str) (rs : rules) : option str :=
  match rs with
  | [] => None
  | (pref, device) :: rs' =>
      if prefix_matches mac pref then Some device else classify mac rs'
  end.

(** An ARP entry [(ip, mac)] and a match [(device, ip, mac)]. *)
Definition entry := (str * str)%type.
Definition found := (str * str * str)%type.

(** The outer loop of lines 57-63 (and again 217-223). *)
Fixpoint match_entries (rs : rules) (entries : list entry) : list found :=
  match entries with
  | [] => []
  | (ip, mac) :: es =>
      match classify mac rs with
      | Some device => (device, ip, mac) :: match_entries rs es
      | None => match_entries rs es
      end
  end.

(** ** Regular expressions

    The two patterns of the script use literals, character classes under a
    greedy quantifier, a counted non-capturing group and capturing groups
    that do not nest.  [exec] is the backtracking matcher of [re] for that
    fragment: a quantifier first takes as many characters as it may and
    gives them back one at a time while the rest of the pattern fails. *)

Inductive regex : Type :=
| Lit (w : str)                                      (* the characters of [w] *)
| Rep (lo : nat) (hi : option nat) (p : ascii -> bool) (* [[p]{lo,hi}], greedy *)
| Seq (r1 r2 : regex)
| Times (n : nat) (r : regex)                        (* [(?:r){n}] *)
| Group (r : regex).                                 (* [(r)] *)

(** [[p]+] and [[p]*] *)
Definition Plus (p : ascii -> bool) : regex := Rep 1 None p.
Definition Star (p : ascii -> bool) : regex := Rep 0 None p.

(** What is left of [s] once the literal [w] is read from its front. *)
Fixpoint strip_prefix (w s : str) {struct w} : option str :=
  match w, s with
  | [], _ => Some s
  | _ :: _, [] => None
  | a :: w', b :: s' => if Ascii.eqb a b then strip_prefix w' s' else None
  end.

Definition may_take (hi : option nat) : bool :=
  match hi with Some 0 => false | _ => true end.

Section Matcher.
(** The result of a successful match: the texts of the groups. *)
Definition groups := list str.
Definition cont := groups -> str -> option groups.

(** [[p]{lo,hi}] against [s], then [k] on the rest. *)
Fixpoint rep (p : ascii -> bool) (lo : nat) (hi : option nat)
         (s : str) (k : str -> option groups) : option groups :=
  let stop := if lo =? 0 then k s else None in
  match s with
  | c :: s' =>
      if p c && may_take hi then
        match rep p (pred lo) (option_map pred hi) s' k with
        | Some g => Some g
        | None => stop
        end
      else stop
  | [] => stop
  end.

Fixpoint exec (r : regex) (s : str) (gs : groups) (k : cont) : option groups :=
  match r with
  | Lit w => match strip_prefix w s with Some s' => k gs s' | None => None end
  | Rep lo hi p => rep p lo hi s (k gs)
  | Seq r1 r2 => exec r1 s gs (fun gs' s' => exec r2 s' gs' k)
  | Times n r1 =>
      (fix times (n : nat) (s : str) (gs : groups) : option groups :=
         match n with
         | 0 => k gs s
         | S n' => exec r1 s gs (fun gs' s' => times n' s' gs')
         end) n s gs
  | Group r1 =>
      exec r1 s gs
           (fun gs' s' => k (gs' ++ [firstn (length s - length s') s]) s')
  end.

(** [pattern.match(s)]: the pattern at the front of [s]. *)
Definition match_here (r : regex) (s : str) : option groups :=
  exec r s [] (fun gs _ => Some gs).

(** [pattern.search(s)]: the first position of [s], from the left, at
    which the pattern matches. *)
Fixpoint search (r : regex) (s : str) : option groups :=
  match match_here r s with
  | Some gs => Some gs
  | None => match s with [] => None | _ :: s' => search r s' end
  end.
End Matcher.

(** Line 24: [([0-9]+(?:\.[0-9]+){3})\s+([0-9A-Fa-f:-]{14,17})] *)
Definition arp_pattern : regex :=
  Seq (Group (Seq (Plus is_digit) (Times 3 (Seq (Lit (py ".")) (Plus is_digit)))))
      (Seq (Plus is_space)
           (Group (Rep 14 (Some 17) is_mac_char))).

(** Line 74: [IPv4 Address[. ]*: ([0-9]+\.[0-9]+\.[0-9]+\.[0-9]+)] *)
Definition ipv4_pattern : regex :=
  Seq (Lit (py "IPv4 Address"))
      (Seq (Star is_dot_or_blank)
           (Seq (Lit (py ": "))
                (Group (Seq (Plus is_digit)
                       (Seq (Lit (py ".")) (Seq (Plus is_digit)
                       (Seq (Lit (py ".")) (Seq (Plus is_digit)
                       (Seq (Lit (py ".")) (Plus is_digit)))))))))).

(** ** Reading the ARP cache (lines 18-35) *)

(** What [subprocess.run(..., check=True)] gives: the standard output, or an
    exception. *)
Inductive cmd_result : Type :=
| Ok (stdout : str)
| Failed.

(** Lines 30-34 for one line of the output. *)
Definition arp_line (line : str) : option entry :=
  match search arp_pattern line with
  | Some [ip; mac] => Some (ip, replace_char "-" ":" (lower mac))
  | _ => None
  end.

Fixpoint arp_lines (lines : list str) : list entry :=
  match lines with
  | [] => []
  | l :: ls =>
      match arp_line l with
      | Some e => e :: arp_lines ls
      | None => arp_lines ls
      end
  end.

Definition get_arp_entries (arp : cmd_result) : list entry :=
  match arp with
  | Failed => []
  | Ok out => arp_lines (splitlines out)
  end.

(** ** Addresses (lines 131-138) *)

Fixpoint str_eqb (a b : str) : bool :=
  match a, b with
  | [], [] => true
  | x :: a', y :: b' => Ascii.eqb x y && str_eqb a' b'
  | _, _ => false
  end.

(** A run of decimal digits read as a number. *)
Definition nat_of_str (s : str) : option nat :=
  option_map Nat.of_uint (NilEmpty.uint_of_string (string_of_list_ascii s)).

(** One part of a dotted quad: a number up to 255 in the spelling [str]
    gives it, so without a sign, a blank or a leading zero. *)
Definition octet_of_str (s : str) : option Z :=
  match nat_of_str s with
  | Some n => if (n <=? 255) && str_eqb (str_of_nat n) s
              then Some (Z.of_nat n) else None
  | None => None
  end.

(** [socket.inet_aton] and the big-endian [struct.unpack('!I', ...)]: the
    model reads the dotted-decimal quads, which is how addresses and
    netmasks are reported to the script, and raises on every other string.
    (The C library's routine also reads shorter, octal and hexadecimal
    spellings; nothing below is stated about those.) *)
Definition inet_aton (s : str) : option Z :=
  match map octet_of_str (split "." s) with
  | [Some a; Some b; Some c; Some d] =>
      Some (Z.lor (Z.shiftl a 24) (Z.lor (Z.shiftl b 16) (Z.lor (Z.shiftl c 8) d)))
  | _ => None
  end.

Definition _ip2int (ip : str) : option Z := inet_aton ip.

Definition octet (i : Z) (shift : Z) : str :=
  str_of_nat (Z.to_nat (Z.land (Z.shiftr i shift) 255)).

(** [socket.inet_ntoa(struct.pack('!I', i))]: [struct.pack] raises unless
    [0 <= i <= 0xFFFFFFFF]. *)
Definition _int2ip (i : Z) : option str :=
  if (0 <=? i)%Z && (i <=? 0xFFFFFFFF)%Z
  then Some (join (py ".") [octet i 24; octet i 16; octet i 8; octet i 0])
  else None.

Fixpoint bin_pos (p : positive) : str :=
  match p with
  | xH => py "1"
  | xO p' => bin_pos p' ++ py "0"
  | xI p' => bin_pos p' ++ py "1"
  end.

(** [bin(n)] *)
Definition bin (n : Z) : str :=
  match n with
  | Z0 => py "0b0"
  | Zpos p => py "0b" ++ bin_pos p
  | Zneg p => py "-0b" ++ bin_pos p
  end.

(** [s.count(c)] for one character. *)
Definition count_char (c : ascii) (s : str) : nat :=
  List.length (filter (Ascii.eqb c) s).

(** [_mask_to_prefix]: [bin(_ip2int(mask)).count('1')] *)
Definition _mask_to_prefix (mask : str) : option nat :=
  option_map (fun i => count_char "1" (bin i)) (_ip2int mask).

(** ** Targets *)

(** [range(start, stop)] on integers. *)
Definition range (start stop : Z) : list Z :=
  map (fun k => (start + Z.of_nat k)%Z) (seq 0 (Z.to_nat (stop - start))).

(** [[f"{pref}.{i}" for i in range(1, 255)]] (lines 94 and 204). *)
Definition host_block (pref : str) : list str :=
  map (fun i => pref ++ py "." ++ str_of_nat i) (seq 1 254).

(** A loop that appends [f x] for each [x] and raises when [f] does. *)
Fixpoint collect {A B : Type} (f : A -> option B) (l : list A) : option (list B) :=
  match l with
  | [] => Some []
  | x :: l' =>
      match f x with
      | None => None
      | Some y => option_map (cons y) (collect f l')
      end
  end.

(** Lines 186-204 of [get_scan_targets_from_interface]: the targets for the
    address and netmask of the chosen interface.  [None] is an exception,
    which line 205 turns into [return None]. *)
Definition scan_targets (ip netmask : str) : option (list str) :=
  match _mask_to_prefix netmask with
  | None => None
  | Some mask_len =>
      if 24 <=? mask_len then
        match _ip2int ip, _ip2int netmask with
        | Some ip_i, Some mask_i =>
            let net_base := Z.land ip_i mask_i in
            let bcast := Z.lor net_base (Z.land (Z.lnot mask_i) 0xFFFFFFFF) in
            let start := (net_base + 1)%Z in
            let end_ := (bcast - 1)%Z in
            collect _int2ip (range start (end_ + 1))
        | _, _ => None
        end
      else
        let parts := split "." ip in
        let pref := join (py ".") (firstn 3 parts) in
        Some (host_block pref)
  end.

(** ** Choosing the interface (lines 140-184) *)

(** One entry of [netifaces.ifaddresses(name)[AF_INET]]; a key may be
    absent. *)
Record inet_binding : Type := {
  addr : option str;
  netmask : option str
}.

(** What the [netifaces] module reports.  [gateways] is the value of
    [gateways().get('default', {}).get(AF_INET)], a pair of the gateway's
    address and the interface's name; [ifaddresses name] is [None] when the
    call raises (an unknown name) and an empty list when the interface has no
    [AF_INET] entry. *)
Record NetIfaces : Type := {
  gateways : option (str * str);
  interfaces : list str;
  ifaddresses : str -> option (list inet_binding)
}.

(** Truth value of a name that may be [None]. *)
Definition named (iface : option str) : bool :=
  match iface with
  | Some (_ :: _) => true
  | _ => false
  end.

Definition vpn_keywords : list str :=
  [py "vpn"; py "anyconnect"; py "tap"; py "tun"; py "ppp"; py "virtual";
   py "vnic"; py "openvpn"].

Definition _is_vpn_iface (name : str) : bool :=
  match name with
  | [] => false
  | _ => let k := lower name in existsb (fun x => contains k x) vpn_keywords
  end.

(** The loop of lines 160-169: the first interface that is not named like a
    VPN and whose first IPv4 address is not a loopback one.  The outer
    [option] is the exception of [ifaddresses]. *)
Fixpoint first_usable (nif : NetIfaces) (ifcs : list str) : option (option str) :=
  match ifcs with
  | [] => Some None
  | ifc :: rest =>
      if _is_vpn_iface ifc then first_usable nif rest
      else match ifaddresses nif ifc with
           | None => None
           | Some [] => first_usable nif rest
           | Some (a :: _) =>
               match addr a with
               | Some (c :: ip') =>
                   if negb (startswith (c :: ip') (py "127."))
                   then Some (Some ifc) else first_usable nif rest
               | _ => first_usable nif rest
               end
           end
  end.

Definition get_scan_targets_from_interface (nif : NetIfaces) : option (list str) :=
  let default := gateways nif in
  let iface0 :=
    match default with
    | Some (_, name) => if _is_vpn_iface name then None else Some name
    | None => None
    end in
  match (if named iface0 then Some iface0 else first_usable nif (interfaces nif)) with
  | None => None
  | Some iface1 =>
      let iface2 :=
        match default with
        | Some (_, name) => if named iface1 then iface1 else Some name
        | None => iface1
        end in
      match iface2 with
      | Some (c :: n) =>
          match ifaddresses nif (c :: n) with
          | Some (a :: _) =>
              match addr a, netmask a with
              | Some (x :: ip'), Some (y :: nm') => scan_targets (x :: ip') (y :: nm')
              | _, _ => None
              end
          | _ => None
          end
      | _ => None
      end
  end.

(** ** The ping sweep (lines 81-129) *)

(** The argument of [ping_sweep]: a list of addresses or a string. *)
Inductive sweep_arg : Type :=
| ArgList (ips : list str)
| ArgStr (s : str).

(** Lines 84-94: the addresses that go into the queue; [None] is the bare
    [return] of line 93, before there is a queue. *)
Definition sweep_ips (prefix_or_ip : sweep_arg) : option (list str) :=
  match prefix_or_ip with
  | ArgList ips => Some ips
  | ArgStr s =>
      let parts := split "." s in
      if List.length parts =? 4 then Some (host_block (join (py ".") (firstn 3 parts)))
      else if List.length parts =? 3 then Some (host_block s)
      else None
  end.

(** Lines 96-129: the queue, the workers and the two joins, one atomic
    action of one thread at a time.  [queue.Queue] serialises [get_nowait]
    and [task_done]; [_ping] always comes back, by the one-second timeout of
    [subprocess.run] and the [except] around it. *)
Module Sweep.

(** Where a worker thread stands in [worker()]. *)
Inductive worker : Type :=
| Idle                    (* at the top of the loop, before [q.get_nowait()] *)
| Busy (target : str)     (* holds [target], inside [_ping(target)] *)
| Acking                  (* in the [finally], before [q.task_done()] *)
| Exited.                 (* [queue.Empty] was raised: the thread returned *)

Record state : Type := {
  queue : list str;        (* the items of [q], oldest first *)
  unfinished : nat;        (* [q.unfinished_tasks] *)
  workers : list worker;   (* the threads started so far *)
  returned : bool;         (* [ping_sweep] has returned *)
  dequeued : list str;     (* what [get_nowait] handed out, in order *)
  probed : list str        (* the targets whose [_ping] is over, in order *)
}.

(** Lines 104-106 and 120: the queue is filled before a thread exists. *)
Definition init (ips : list str) : state :=
  {| queue := ips; unfinished := List.length ips; workers := [];
     returned := false; dequeued := []; probed := [] |}.

Definition max_workers (ips : list str) : nat := Nat.min 60 (List.length ips).

Inductive action : Type :=
| Spawn              (* the main thread starts one more worker *)
| Work (i : nat)     (* worker [i] takes its next step *)
| Join.              (* [q.join()] is over, and with it lines 128-129 *)

Fixpoint set_nth {A : Type} (i : nat) (x : A) (l : list A) : list A :=
  match l, i with
  | [], _ => []
  | _ :: l', 0 => x :: l'
  | y :: l', S i' => y :: set_nth i' x l'
  end.

(** One step of worker [i]. *)
Definition work (i : nat) (s : state) : option state :=
  match nth_error (workers s) i with
  | Some Idle =>
      match queue s with
      | t :: q' =>
          Some {| queue := q'; unfinished := unfinished s;
                  workers := set_nth i (Busy t) (workers s);
                  returned := returned s;
                  dequeued := dequeued s ++ [t]; probed := probed s |}
      | [] =>
          Some {| queue := []; unfinished := unfinished s;
                  workers := set_nth i Exited (workers s);
                  returned := returned s;
                  dequeued := dequeued s; probed := probed s |}
      end
  | Some (Busy t) =>
      Some {| queue := queue s; unfinished := unfinished s;
              workers := set_nth i Acking (workers s);
              returned := returned s;
              dequeued := dequeued s; probed := probed s ++ [t] |}
  | Some Acking =>
      Some {| queue := queue s; unfinished := unfinished s - 1;
              workers := set_nth i Idle (workers s);
              returned := returned s;
              dequeued := dequeued s; probed := probed s |}
  | Some Exited => None
  | None => None
  end.

(** One action; [None] when the thread cannot move: the loop of line 121
    is over, [q.join()] still waits, or the thread has ended. *)
Definition step (ips : list str) (a : action) (s : state) : option state :=
  match a with
  | Spawn =>
      if negb (returned s) && (List.length (workers s) <? max_workers ips)
      then Some {| queue := queue s; unfinished := unfinished s;
                   workers := workers s ++ [Idle];
                   returned := false;
                   dequeued := dequeued s; probed := probed s |}
      else None
  | Work i => work i s
  | Join =>
      if negb (returned s) && (List.length (workers s) =? max_workers ips)
         && (unfinished s =? 0)
      then Some {| queue := queue s; unfinished := unfinished s;
                   workers := workers s;
                   returned := true;
                   dequeued := dequeued s; probed := probed s |}
      else None
  end.

(** A schedule, action by action. *)
Fixpoint run (ips : list str) (sched : list action) (s : state) : option state :=
  match sched with
  | [] => Some s
  | a :: sched' =>
      match step ips a s with
      | Some s' => run ips sched' s'
      | None => None
      end
  end.

Definition weight (w : worker) : nat :=
  match w with
  | Idle => 1
  | Busy _ => 3
  | Acking => 2
  | Exited => 0
  end.

(** An upper bound on the number of actions still to come. *)
Definition fuel (ips : list str) (s : state) : nat :=
  (if returned s then 0 else 1)
  + 2 * (max_workers ips - List.length (workers s))
  + 4 * List.length (queue s)
  + list_sum (map weight (workers s)).

End Sweep.

(** [ping_sweep] as its caller sees it: [None] when it returns at line 93,
    [Some ips] when the pool of [Sweep] has run over [ips]. *)
Definition ping_sweep (prefix_or_ip : sweep_arg) : option (list str) :=
  sweep_ips prefix_or_ip.

(** ** The run (lines 38-229) *)

(** Lines 70-79. *)
Definition get_local_ipv4 (ipconfig : cmd_result) : option str :=
  match ipconfig with
  | Failed => None
  | Ok out =>
      match search ipv4_pattern out with
      | Some [ip] => Some ip
      | _ => None
      end
  end.

(** The machine the script runs on: what [arp -a] prints at the start,
    what [ipconfig] prints, what [arp -a] prints after the sweep (given what
    was swept) and what [netifaces] would report. *)
Record World : Type := {
  arp_before : cmd_result;
  ipconfig : cmd_result;
  arp_after : option (list str) -> cmd_result;
  netifaces : NetIfaces
}.

(** What a run does, in order. *)
Inductive event : Type :=
| EArp                        (* [arp -a] is run *)
| EIpconfig                   (* [ipconfig] is run *)
| ESweep (ips : list str)     (* the worker pool pings [ips] *)
| EPrint (line : str).        (* a line on standard output *)

(** Lines 228-229: [enumerate(matches, start=i)]. *)
Fixpoint report_lines (i : nat) (ms : list found) : list str :=
  match ms with
  | [] => []
  | (device, ip, mac) :: ms' =>
      (str_of_nat i ++ py ". " ++ device ++ py " " ++ ip ++ py " " ++ mac)
        :: report_lines (S i) ms'
  end.

(** Lines 225-229. *)
Definition report (ms : list found) : list str :=
  match ms with
  | [] => [py "No matches found for configured MAC prefixes"]
  | _ :: _ => report_lines 1 ms
  end.

(** Lines 39 and 57-63. *)
Definition passive_matches (w : World) : list found :=
  match_entries mac_device_map (get_arp_entries (arp_before w)).

(** Lines 208-213: the argument [main] gives to [ping_sweep]. *)
Definition sweep_argument (w : World) : sweep_arg :=
  match get_local_ipv4 (ipconfig w) with
  | Some (c :: ip) => ArgStr (c :: ip)
  | _ => ArgStr (py "192.168.1")
  end.

Definition sweep_events (swept : option (list str)) : list event :=
  match swept with
  | Some ips => [ESweep ips]
  | None => []
  end.

(** Lines 216-223. *)
Definition active_matches (w : World) : list found :=
  let swept := ping_sweep (sweep_argument w) in
  match_entries mac_device_map (get_arp_entries (arp_after w swept)).

(** [main]: the events of the run and the matches it reports. *)
Definition main (w : World) : list event * list found :=
  match passive_matches w with
  | [] =>
      let swept := ping_sweep (sweep_argument w) in
      let matches := active_matches w in
      ([EArp; EIpconfig] ++ sweep_events swept ++ [EArp]
         ++ map EPrint (report matches), matches)
  | m :: ms =>
      ([EArp] ++ map EPrint (report (m :: ms)), m :: ms)
  end.

(** The target lists swept during a run. *)
Fixpoint sweeps (tr : list event) : list (list str) :=
  match tr with
  | [] => []
  | ESweep ips :: tr' => ips :: sweeps tr'
  | _ :: tr' => sweeps tr'
  end.

(** The lines printed during a run. *)
Fixpoint printed (tr : list event) : list str :=
  match tr with
  | [] => []
  | EPrint l :: tr' => l :: printed tr'
  | _ :: tr' => printed tr'
  end.

(** ** Vocabulary of the statements *)

Definition is_separator (c : ascii) : bool :=
  Ascii.eqb c ":" || Ascii.eqb c "-".

(** A MAC or a prefix with its separators taken out: two spellings that
    differ by the style of separation agree on it. *)
Definition strip_separators (s : str) : str :=
  filter (fun c => negb (is_separator c)) s.

(** [[0-9a-f]] *)
Definition is_lower_hex (c : ascii) : bool :=
  is_digit c || between 97 102 c.


(** Every character of [s] is in the class [p]. *)
Definition all_in (p : ascii -> bool) (s : str) : Prop :=
  Forall (fun c => p c = true) s.

Definition within (hi : option nat) (n : nat) : Prop :=
  match hi with
  | None => True
  | Some h => n <= h
  end.

(** [denotes r s gs gs']: the text [s] is in the language of [r], and
    reading it appends to the groups [gs] the texts of the groups of [r],
    giving [gs']. *)
Inductive denotes : regex -> str -> groups -> groups -> Prop :=
| D_Lit w gs : denotes (Lit w) w gs gs
| D_Rep lo hi p s gs :
    all_in p s -> lo <= List.length s -> within hi (List.length s) ->
    denotes (Rep lo hi p) s gs gs
| D_Seq r1 r2 a b gs gs' gs'' :
    denotes r1 a gs gs' -> denotes r2 b gs' gs'' ->
    denotes (Seq r1 r2) (a ++ b) gs gs''
| D_Times0 r gs : denotes (Times 0 r) [] gs gs
| D_TimesS n r a b gs gs' gs'' :
    denotes r a gs gs' -> denotes (Times n r) b gs' gs'' ->
    denotes (Times (S n) r) (a ++ b) gs gs''
| D_Group r s gs gs' :
    denotes r s gs gs' -> denotes (Group r) s gs (gs' ++ [s]).

(** A non-empty run of decimal digits. *)
Definition digits (s : str) : Prop := s <> [] /\ all_in is_digit s.

(** Four runs of digits with dots in between. *)
Definition dotted_quad (s : str) : Prop :=
  exists a b c d,
    s = a ++ py "." ++ b ++ py "." ++ c ++ py "." ++ d
    /\ digits a /\ digits b /\ digits c /\ digits d.

(** A non-empty run of white space. *)
Definition blanks (s : str) : Prop := s <> [] /\ all_in is_space s.

(** [n] to [17] characters among the hexadecimal digits, [:] and [-]. *)
Definition mac_token (n : nat) (s : str) : Prop :=
  all_in is_mac_char s /\ n <= List.length s <= 17.

(** The line holds a dotted quad, white space and a MAC token of at least
    [n] characters, in this order and next to one another. *)
Definition has_arp_pair (n : nat) (line : str) : Prop :=
  exists pre ip ws tok post,
    line = pre ++ ip ++ ws ++ tok ++ post
    /\ dotted_quad ip /\ blanks ws /\ mac_token n tok.

(** [[0-9a-f:]] *)
Definition is_canonical_mac_char (c : ascii) : bool :=
  is_lower_hex c || Ascii.eqb c ":".

(** The line feed. *)
Definition LF : ascii := ascii_of_nat 10.

(** What [arp -a] prints on Windows above the entries of an interface. *)
Definition arp_header_only : str :=
  LF :: py "Interface: 192.168.1.5 --- 0xb" ++ LF
     :: py "  Internet Address      Physical Address      Type" ++ [LF].

(** A line whose hardware address is written without separators. *)
Definition line_12_chars : str :=
  py "  192.168.1.10          28cdc1aabbcc          dynamic".

Definition is_arp (e : event) : bool :=
  match e with EArp => true | _ => false end.

Definition is_ipconfig (e : event) : bool :=
  match e with EIpconfig => true | _ => false end.

Definition is_sweep (e : event) : bool :=
  match e with ESweep _ => true | _ => false end.

(** How many events of a kind a run has. *)
Definition count_events (f : event -> bool) (tr : list event) : nat :=
  List.length (filter f tr).

Definition no_match_message : str :=
  py "No matches found for configured MAC prefixes".

Definition not_dot (c : ascii) : bool := negb (Ascii.eqb c ".").

(** The dotted quad of four numbers, and the 32-bit value it stands for. *)
Definition quad (a b c d : nat) : str :=
  str_of_nat a ++ py "." ++ str_of_nat b ++ py "." ++ str_of_nat c
    ++ py "." ++ str_of_nat d.

Definition quad_value (a b c d : nat) : Z :=
  (Z.of_nat a * 2 ^ 24 + Z.of_nat b * 2 ^ 16 + Z.of_nat c * 2 ^ 8 + Z.of_nat d)%Z.

(** The dotted quad of a 32-bit value. *)
Definition dotted (i : Z) : str :=
  join (py ".") [octet i 24; octet i 16; octet i 8; octet i 0].

(** The netmask of prefix length [n]: [n] ones, then zeros. *)
Definition netmask_of_prefix (n : nat) : Z :=
  (2 ^ 32 - 2 ^ (32 - Z.of_nat n))%Z.

(** A machine whose interface has the address 192.168.1.50 in a /25, with an
    empty ARP cache before and after the sweep. *)
Definition ipconfig_half : str :=
  py "   IPv4 Address. . . . . . . . . . . : 192.168.1.50" ++ LF
    :: py "   Subnet Mask . . . . . . . . . . . : 255.255.255.128".

Definition netifaces_half : NetIfaces :=
  {| gateways := Some (py "192.168.1.1", py "Ethernet");
     interfaces := [py "Ethernet"];
     ifaddresses := fun name =>
       if str_eqb name (py "Ethernet")
       then Some [{| addr := Some (py "192.168.1.50");
                     netmask := Some (py "255.255.255.128") |}]
       else None |}.

Definition world_half : World :=
  {| arp_before := Ok [];
     ipconfig := Ok ipconfig_half;
     arp_after := fun _ => Ok [];
     netifaces := netifaces_half |}.

(** The targets if they came from the interface and its netmask, with the
    fixed /24 when no interface is found. *)
Definition claimed_targets (w : World) : list str :=
  match get_scan_targets_from_interface (netifaces w) with
  | Some ts => ts
  | None => host_block (py "192.168.1")
  end.

(** A machine without [netifaces] data. *)
Definition no_netifaces : NetIfaces :=
  {| gateways := None; interfaces := []; ifaddresses := fun _ => None |}.

(** A machine whose cache already holds a Raspberry Pi. *)
Definition world_cached : World :=
  {| arp_before :=
       Ok (py "  192.168.1.10          28-cd-c1-aa-bb-cc     dynamic");
     ipconfig := Failed;
     arp_after := fun _ => Failed;
     netifaces := no_netifaces |}.

(** A worker that holds a task not yet acknowledged counts for one. *)
Definition in_flight (w : Sweep.worker) : nat :=
  match w with
  | Sweep.Busy _ | Sweep.Acking => 1
  | _ => 0
  end.

(** The target a worker is pinging. *)
Definition held (w : Sweep.worker) : list str :=
  match w with
  | Sweep.Busy t => [t]
  | _ => []
  end.

(** What holds of every state of a sweep over [ips]. *)
Record sweep_inv (ips : list str) (s : Sweep.state) : Prop := {
  inv_fifo : Sweep.dequeued s ++ Sweep.queue s = ips;
  inv_count :
    Sweep.unfinished s
    = List.length (Sweep.queue s) + list_sum (map in_flight (Sweep.workers s));
  inv_probed :
    Permutation (Sweep.dequeued s)
                (Sweep.probed s ++ flat_map held (Sweep.workers s));
  inv_pool : List.length (Sweep.workers s) <= Sweep.max_workers ips;
  inv_exit : In Sweep.Exited (Sweep.workers s) -> Sweep.queue s = [];
  inv_ret :
    Sweep.returned s = true ->
    Sweep.unfinished s = 0
    /\ List.length (Sweep.workers s) = Sweep.max_workers ips
}.

(** A sweep over three addresses with three workers. *)
Definition three_ips : list str := [py "10.0.0.1"; py "10.0.0.2"; py "10.0.0.3"].

Definition three_schedule : list Sweep.action :=
  [Sweep.Spawn; Sweep.Work 0; Sweep.Spawn; Sweep.Work 1; Sweep.Work 1;
   Sweep.Spawn; Sweep.Work 2; Sweep.Work 0; Sweep.Work 1; Sweep.Work 0;
   Sweep.Work 2; Sweep.Work 2; Sweep.Work 1; Sweep.Join].

(** An entry that some rule of the table matches. *)
Definition classified (rs : rules) (e : entry) : bool :=
  match classify (snd e) rs with
  | Some _ => true
  | None => false
  end.

(** The entry a match was made from. *)
Definition entry_of (m : found) : entry :=
  match m with (_, ip, mac) => (ip, mac) end.

(** The output of [ipconfig] shows an address: the words [IPv4 Address],
    dots and blanks, a colon, a blank and a dotted quad. *)
Definition shows_ipv4 (out ip : str) : Prop :=
  exists pre ws post,
    out = pre ++ py "IPv4 Address" ++ ws ++ py ": " ++ ip ++ post
    /\ all_in is_dot_or_blank ws /\ dotted_quad ip.

(** Lines 177-204 for the interface [name]: the targets from its first
    IPv4 address and netmask. *)
Definition iface_targets (nif : NetIfaces) (name : str) : option (list str) :=
  match ifaddresses nif name with
  | Some (a :: _) =>
      match addr a, netmask a with
      | Some (x :: ip'), Some (y :: nm') => scan_targets (x :: ip') (y :: nm')
      | _, _ => None
      end
  | _ => None
  end.

(** The first binding has a loopback address or no address at all. *)
Definition no_lan_address (bs : list inet_binding) : Prop :=
  match bs with
  | [] => True
  | a :: _ =>
      match addr a with
      | Some (c :: ip) => startswith (c :: ip) (py "127.") = true
      | _ => True
      end
  end.

(** The loop of lines 160-169 goes past the interface: its name is a VPN's,
    or it has no IPv4 address but a loopback one. *)
Definition passed_over (nif : NetIfaces) (ifc : str) : Prop :=
  _is_vpn_iface ifc = true
  \/ exists bs, ifaddresses nif ifc = Some bs /\ no_lan_address bs.

(** The loop stops at the interface. *)
Definition usable (nif : NetIfaces) (ifc : str) : Prop :=
  _is_vpn_iface ifc = false
  /\ exists a rest c ip,
      ifaddresses nif ifc = Some (a :: rest)
      /\ addr a = Some (c :: ip)
      /\ startswith (c :: ip) (py "127.") = false.

(** The default gateway's interface is not to be taken at first: there is
    none, or its name is a VPN's or empty. *)
Definition no_plain_default (nif : NetIfaces) : Prop :=
  match gateways nif with
  | None => True
  | Some (_, name) => _is_vpn_iface name = true \/ name = []
  end.

(** A machine with a VPN as default route and a wired interface. *)
Definition netifaces_vpn : NetIfaces :=
  {| gateways := Some (py "10.8.0.1", py "OpenVPN TAP");
     interfaces := [py "OpenVPN TAP"; py "Loopback"; py "Ethernet"];
     ifaddresses := fun name =>
       if str_eqb name (py "Ethernet")
       then Some [{| addr := Some (py "192.168.1.50");
                     netmask := Some (py "255.255.255.0") |}]
       else if str_eqb name (py "Loopback")
       then Some [{| addr := Some (py "127.0.0.1");
                     netmask := Some (py "255.0.0.0") |}]
       else if str_eqb name (py "OpenVPN TAP")
       then Some [{| addr := Some (py "10.8.0.6");
                     netmask := Some (py "255.255.255.252") |}]
       else None |}.

(** A machine whose only interface cannot be queried. *)
Definition netifaces_broken : NetIfaces :=
  {| gateways := None; interfaces := [py "Ethernet"];
     ifaddresses := fun _ => None |}.

(** Where a MAC token ends: at the end of the line or before a character
    that cannot be part of one. *)
Definition ends_token (post : str) : Prop :=
  match post with
  | [] => True
  | c :: _ => is_mac_char c = false
  end.

Definition not_digit (c : ascii) : bool := negb (is_digit c).

(** How many of the 32 bits of [m] are set. *)
Definition set_bits (m : Z) : nat :=
  List.length (filter (Z.testbit m) (map Z.of_nat (seq 0 32))).

(** An entry as the parser makes them: a dotted quad and 14 to 17
    characters among [0-9a-f:]. *)
Definition well_formed_entry (e : entry) : Prop :=
  dotted_quad (fst e)
  /\ all_in is_canonical_mac_char (snd e)
  /\ 14 <= List.length (snd e) <= 17.

(** The reading of the cache that the report of a run is made from. *)
Definition last_reading (w : World) : cmd_result :=
  match passive_matches w with
  | [] => arp_after w (ping_sweep (sweep_argument w))
  | _ :: _ => arp_before w
  end.

(** A machine with a VPN as default route and no other interface but the
    loopback. *)
Definition netifaces_vpn_only : NetIfaces :=
  {| gateways := Some (py "10.8.0.1", py "OpenVPN TAP");
     interfaces := [py "OpenVPN TAP"; py "Loopback"];
     ifaddresses := ifaddresses netifaces_vpn |}.
(** * Properties *)

(** ** Characters and strings *)

(** A fact about one character, checked on each of the 256. *)
Ltac each_char c :=
  destruct c as [[] [] [] [] [] [] [] []]; vm_compute; try reflexivity;
  try discriminate; auto.

Lemma py_app (a b : string) : py (a ++ b)%string = py a ++ py b.
Proof.
  unfold py. induction a as [|c a IH]; simpl; [reflexivity|].
  now rewrite IH.
Qed.

Lemma str_eqb_eq (a b : str) : str_eqb a b = true <-> a = b.
Proof.
  revert b. induction a as [|x a IH]; intros [|y b]; simpl; split; intros H;
    try reflexivity; try discriminate.
  - apply andb_true_iff in H. destruct H as [H1 H2].
    apply Ascii.eqb_eq in H1. apply IH in H2. now subst.
  - injection H as -> ->. rewrite Ascii.eqb_refl. simpl. now apply IH.
Qed.

Lemma startswith_app (s p : str) :
  startswith s p = true <-> exists rest, s = p ++ rest.
Proof.
  revert s. induction p as [|a p IH]; intros s; simpl.
  - split; [intros _; now exists s | reflexivity].
  - destruct s as [|b s]; split.
    + discriminate.
    + intros [rest H]. discriminate.
    + intros H. apply andb_true_iff in H. destruct H as [H1 H2].
      apply Ascii.eqb_eq in H1. apply IH in H2. destruct H2 as [rest ->].
      subst. now exists rest.
    + intros [rest H]. injection H as -> ->.
      rewrite Ascii.eqb_refl. simpl. apply IH. now exists rest.
Qed.

(** ** MAC matching *)

Lemma hex_not_separator (c : ascii) :
  is_hex c = true -> is_separator c = false.
Proof. each_char c. Qed.

Lemma lower_hex (c : ascii) :
  is_hex c = true -> is_lower_hex (lower_char c) = true.
Proof. each_char c. Qed.

Lemma norm_strip_separators (s : str) :
  _norm (strip_separators s) = _norm s.
Proof.
  unfold _norm, strip_separators. f_equal.
  induction s as [|c s IH]; simpl; [reflexivity|].
  destruct (is_hex c) eqn:Hc.
  - rewrite (hex_not_separator c Hc). simpl. rewrite Hc. now rewrite IH.
  - destruct (is_separator c); simpl; [exact IH|]. now rewrite Hc.
Qed.

Lemma norm_lower_hex (s : str) : Forall (fun c => is_lower_hex c = true) (_norm s).
Proof.
  unfold _norm, lower. induction s as [|c s IH]; simpl; [constructor|].
  destruct (is_hex c) eqn:Hc; simpl; [|exact IH].
  constructor; [now apply lower_hex | exact IH].
Qed.

Lemma norm_no_other (s : str) :
  _norm s = map lower_char (filter is_hex s).
Proof. reflexivity. Qed.

(** C5. Whatever separators ([:], [-] or none) a MAC and a prefix are
    written with, the test of line 61 gives the same answer: [_norm] keeps
    the hexadecimal digits only, in lower case, and it is applied to both
    sides of [startswith]. *)
Theorem matches_separator_invariant (m m' p p' : str) :
  strip_separators m = strip_separators m' ->
  strip_separators p = strip_separators p' ->
  prefix_matches m p = prefix_matches m' p'
  /\ prefix_matches m p = startswith (_norm m) (_norm p)
  /\ _norm m = _norm m' /\ _norm p = _norm p'
  /\ _norm m = lower (filter is_hex m)
  /\ Forall (fun c => is_lower_hex c = true) (_norm m)
  /\ Forall (fun c => is_lower_hex c = true) (_norm p).
Proof.
  intros Hm Hp.
  assert (Em : _norm m = _norm m').
  { rewrite <- (norm_strip_separators m), <- (norm_strip_separators m').
    now rewrite Hm. }
  assert (Ep : _norm p = _norm p').
  { rewrite <- (norm_strip_separators p), <- (norm_strip_separators p').
    now rewrite Hp. }
  unfold prefix_matches. rewrite Em, Ep.
  repeat split; auto using norm_lower_hex.
Qed.

Lemma matches_separator_invariant_witness :
  strip_separators (py "28:cd:c1:AA:bb:cc") = strip_separators (py "28-cd-c1-AA-bb-cc")
  /\ strip_separators (py "28:cd:c1") = strip_separators (py "28cdc1")
  /\ prefix_matches (py "28:cd:c1:AA:bb:cc") (py "28:cd:c1")
     = prefix_matches (py "28-cd-c1-AA-bb-cc") (py "28cdc1").
Proof.
  assert (Hm : strip_separators (py "28:cd:c1:AA:bb:cc")
               = strip_separators (py "28-cd-c1-AA-bb-cc"))
    by (vm_compute; reflexivity).
  assert (Hp : strip_separators (py "28:cd:c1") = strip_separators (py "28cdc1"))
    by (vm_compute; reflexivity).
  split; [exact Hm|]. split; [exact Hp|].
  exact (proj1 (matches_separator_invariant _ _ _ _ Hm Hp)).
Defined.

Lemma classify_some (mac : str) (rs : rules) (device : str) :
  classify mac rs = Some device <->
  exists before pref after,
    rs = before ++ (pref, device) :: after
    /\ prefix_matches mac pref = true
    /\ forall p d, In (p, d) before -> prefix_matches mac p = false.
Proof.
  induction rs as [|[p0 d0] rs IH]; simpl.
  - split; [discriminate|]. intros (b & p & a & H & _). now destruct b.
  - destruct (prefix_matches mac p0) eqn:Hm; split.
    + intros H. injection H as <-. exists [], p0, rs. simpl. tauto.
    + intros (b & p & a & H & Hp & Hb). destruct b as [|[p1 d1] b]; simpl in H.
      * now injection H as _ <- _.
      * injection H as -> -> ->. specialize (Hb p1 d1 (or_introl eq_refl)).
        congruence.
    + intros H. apply IH in H. destruct H as (b & p & a & -> & Hp & Hb).
      exists ((p0, d0) :: b), p, a. simpl. repeat split; auto.
      intros p1 d1 [E|Hin]; [injection E as <- <-; exact Hm | eauto].
    + intros (b & p & a & H & Hp & Hb). apply IH.
      destruct b as [|[p1 d1] b]; simpl in H.
      * injection H as <- <- <-. congruence.
      * injection H as -> -> ->. exists b, p, a. repeat split; auto.
        intros p2 d2 Hin. apply (Hb p2 d2). now right.
Qed.

Lemma classify_none (mac : str) (rs : rules) :
  classify mac rs = None <->
  forall p d, In (p, d) rs -> prefix_matches mac p = false.
Proof.
  induction rs as [|[p0 d0] rs IH]; simpl.
  - split; [intros _ p d []|reflexivity].
  - destruct (prefix_matches mac p0) eqn:Hm; split.
    + discriminate.
    + intros H. specialize (H p0 d0 (or_introl eq_refl)). congruence.
    + intros H p d [E|Hin]; [injection E as <- <-; exact Hm|].
      apply (proj1 IH H p d Hin).
    + intros H. apply IH. intros p d Hin. apply (H p d). now right.
Qed.

Lemma match_entries_app (rs : rules) (es1 es2 : list entry) :
  match_entries rs (es1 ++ es2) = match_entries rs es1 ++ match_entries rs es2.
Proof.
  induction es1 as [|[ip mac] es1 IH]; simpl; [reflexivity|].
  destruct (classify mac rs); simpl; now rewrite IH.
Qed.

(** C4. The rules are tried in the order of the table and the device of the
    first one whose normalised prefix starts the normalised MAC is the
    answer, whatever the later rules are; a MAC that no rule matches adds
    nothing to the list of matches. *)
Theorem classify_first_match (mac : str) (rs : rules) :
  (forall device,
      classify mac rs = Some device <->
      exists before pref after,
        rs = before ++ (pref, device) :: after
        /\ startswith (_norm mac) (_norm pref) = true
        /\ forall p d, In (p, d) before ->
                       startswith (_norm mac) (_norm p) = false)
  /\ (classify mac rs = None <->
      forall p d, In (p, d) rs -> startswith (_norm mac) (_norm p) = false)
  /\ (forall ip es1 es2,
        match_entries rs (es1 ++ (ip, mac) :: es2)
        = match_entries rs es1
          ++ match classify mac rs with
             | Some device => [(device, ip, mac)]
             | None => []
             end
          ++ match_entries rs es2).
Proof.
  split; [|split].
  - intros device. apply classify_some.
  - apply classify_none.
  - intros ip es1 es2. rewrite match_entries_app. simpl.
    now destruct (classify mac rs).
Qed.

(** Two rules match [28:cd:c1:aa:bb:cc] here; the first one is taken. *)
Example classify_two_matching :
  classify (py "28:cd:c1:aa:bb:cc")
           [(py "94:83:c4", py "GL Technologies"); (py "28:cd", py "first");
            (py "28-CD-C1", py "second")]
  = Some (py "first").
Proof. reflexivity. Qed.

(** ** The matcher against the language of a pattern *)

Lemma strip_prefix_app (w s : str) : strip_prefix w (w ++ s) = Some s.
Proof.
  induction w as [|a w IH]; simpl; [reflexivity|].
  now rewrite Ascii.eqb_refl.
Qed.

Lemma strip_prefix_some (w s rest : str) :
  strip_prefix w s = Some rest -> s = w ++ rest.
Proof.
  revert s. induction w as [|a w IH]; intros s H; simpl in H.
  - now injection H as ->.
  - destruct s as [|b s]; [discriminate|].
    destruct (Ascii.eqb a b) eqn:E; [|discriminate].
    apply Ascii.eqb_eq in E. subst b. simpl. f_equal. now apply IH.
Qed.

Lemma rep_sound (p : ascii -> bool) (s : str) :
  forall lo hi (k : str -> option groups) g,
    rep p lo hi s k = Some g ->
    exists a b, s = a ++ b /\ all_in p a /\ lo <= List.length a
                /\ within hi (List.length a) /\ k b = Some g.
Proof.
  assert (Hstop : forall lo hi (t : str) (k : str -> option groups) g,
             (if lo =? 0 then k t else None) = Some g ->
             exists a b, t = a ++ b /\ all_in p a /\ lo <= List.length a
                         /\ within hi (List.length a) /\ k b = Some g).
  { intros lo hi t k g H. destruct lo; simpl in H; [|discriminate].
    exists [], t. repeat split; auto; try constructor.
    destruct hi; simpl; lia. }
  induction s as [|c s IH]; intros lo hi k g H; simpl in H.
  - now apply Hstop.
  - destruct (p c && may_take hi) eqn:E; [|now apply Hstop].
    apply andb_true_iff in E. destruct E as [Hc Hhi].
    destruct (rep p (pred lo) (option_map pred hi) s k) eqn:R;
      [|now apply Hstop].
    injection H as <-. apply IH in R.
    destruct R as (a & b & -> & Ha & Hlo & Hw & Hk).
    exists (c :: a), b. simpl. repeat split; auto.
    + now constructor.
    + lia.
    + destruct hi as [[|h]|]; simpl in *; try discriminate; lia.
Qed.

Lemma rep_complete (p : ascii -> bool) (a b : str) :
  forall lo hi (k : str -> option groups),
    all_in p a -> lo <= List.length a -> within hi (List.length a) ->
    k b <> None -> rep p lo hi (a ++ b) k <> None.
Proof.
  induction a as [|c a IH]; intros lo hi k Ha Hlo Hhi Hk.
  - simpl in Hlo. assert (lo = 0) by lia. subst lo. simpl.
    destruct b as [|c b]; simpl; [exact Hk|].
    destruct (p c && may_take hi); [|exact Hk].
    destruct (rep p 0 (option_map pred hi) b k); [discriminate|exact Hk].
  - inversion Ha as [|? ? Hc Ha']; subst. simpl.
    assert (Hm : may_take hi = true).
    { destruct hi as [[|h]|]; simpl in *; try reflexivity; lia. }
    rewrite Hc, Hm. simpl.
    assert (R : rep p (pred lo) (option_map pred hi) (a ++ b) k <> None).
    { apply IH; auto.
      - simpl in Hlo. lia.
      - destruct hi as [h|]; simpl in *; [lia|exact I]. }
    destruct (rep p (pred lo) (option_map pred hi) (a ++ b) k);
      [discriminate|contradiction].
Qed.

Lemma firstn_consumed (a b : str) :
  firstn (List.length (a ++ b) - List.length b) (a ++ b) = a.
Proof.
  rewrite length_app, Nat.add_sub, firstn_app, Nat.sub_diag, firstn_all.
  simpl. now rewrite app_nil_r.
Qed.

Lemma exec_sound (r : regex) :
  forall s gs k g,
    exec r s gs k = Some g ->
    exists a b gs', s = a ++ b /\ denotes r a gs gs' /\ k gs' b = Some g.
Proof.
  induction r as [w|lo hi p|r1 IH1 r2 IH2|n r IH|r IH]; intros s gs k g H;
    simpl in H.
  - destruct (strip_prefix w s) as [s'|] eqn:E; [|discriminate].
    apply strip_prefix_some in E. exists w, s', gs. split; [exact E|].
    split; [constructor|exact H].
  - apply rep_sound in H. destruct H as (a & b & -> & Ha & Hlo & Hhi & Hk).
    exists a, b, gs. split; [reflexivity|]. split; [now constructor|exact Hk].
  - apply IH1 in H. destruct H as (a & b & gs1 & -> & D1 & H).
    apply IH2 in H. destruct H as (a' & b' & gs2 & -> & D2 & H).
    exists (a ++ a'), b', gs2. rewrite app_assoc. split; [reflexivity|].
    split; [econstructor; eassumption|exact H].
  - revert s gs H. induction n as [|n IHn]; intros s gs H.
    + exists [], s, gs. split; [reflexivity|]. split; [constructor|exact H].
    + apply IH in H. destruct H as (a & b & gs1 & -> & D1 & H).
      apply IHn in H. destruct H as (a' & b' & gs2 & -> & D2 & H).
      exists (a ++ a'), b', gs2. rewrite app_assoc. split; [reflexivity|].
      split; [econstructor; eassumption|exact H].
  - apply IH in H. destruct H as (a & b & gs1 & -> & D & H).
    rewrite firstn_consumed in H.
    exists a, b, (gs1 ++ [a]). split; [reflexivity|].
    split; [now constructor|exact H].
Qed.

Lemma exec_complete (r : regex) (a : str) (gs gs' : groups) :
  denotes r a gs gs' ->
  forall b (k : cont), k gs' b <> None -> exec r (a ++ b) gs k <> None.
Proof.
  induction 1 as [w gs|lo hi p s gs Hs Hlo Hhi|r1 r2 a a' gs gs1 gs2 _ IH1 _ IH2
                 |r gs|n r a a' gs gs1 gs2 _ IH1 _ IH2|r s gs gs1 _ IH];
    intros b k Hk; simpl.
  - now rewrite strip_prefix_app.
  - now apply rep_complete.
  - rewrite <- app_assoc. apply IH1. now apply IH2.
  - exact Hk.
  - rewrite <- app_assoc. apply IH1. apply (IH2 b k Hk).
  - apply IH. now rewrite firstn_consumed.
Qed.

Lemma match_here_sound (r : regex) (s : str) (g : groups) :
  match_here r s = Some g ->
  exists a b, s = a ++ b /\ denotes r a [] g.
Proof.
  unfold match_here. intros H. apply exec_sound in H.
  destruct H as (a & b & gs' & -> & D & E). injection E as <-.
  now exists a, b.
Qed.

Lemma search_sound (r : regex) (s : str) (g : groups) :
  search r s = Some g ->
  exists pre a post, s = pre ++ a ++ post /\ denotes r a [] g.
Proof.
  induction s as [|c s IH]; simpl.
  - destruct (match_here r []) eqn:E; [|discriminate].
    intros H. injection H as <-. apply match_here_sound in E.
    destruct E as (a & b & E & D). now exists [], a, b.
  - destruct (match_here r (c :: s)) eqn:E.
    + intros H. injection H as <-. apply match_here_sound in E.
      destruct E as (a & b & E & D). now exists [], a, b.
    + intros H. apply IH in H. destruct H as (pre & a & post & -> & D).
      now exists (c :: pre), a, post.
Qed.

Lemma search_complete (r : regex) (pre a post : str) (g : groups) :
  denotes r a [] g -> search r (pre ++ a ++ post) <> None.
Proof.
  intros D.
  assert (M : match_here r (a ++ post) <> None).
  { unfold match_here. apply (exec_complete D). discriminate. }
  induction pre as [|c pre IH]; simpl.
  - destruct (a ++ post); simpl; destruct (match_here r _);
      try discriminate; contradiction.
  - destruct (match_here r (c :: pre ++ a ++ post)); [discriminate|exact IH].
Qed.

(** Inversion of [denotes], one shape of pattern at a time. *)

Lemma denotes_lit (w s : str) (gs gs' : groups) :
  denotes (Lit w) s gs gs' -> s = w /\ gs' = gs.
Proof. inversion 1; subst; auto. Qed.

Lemma denotes_rep lo hi p (s : str) (gs gs' : groups) :
  denotes (Rep lo hi p) s gs gs' ->
  all_in p s /\ lo <= List.length s /\ within hi (List.length s) /\ gs' = gs.
Proof. inversion 1; subst; auto. Qed.

Lemma denotes_seq r1 r2 (s : str) (gs gs'' : groups) :
  denotes (Seq r1 r2) s gs gs'' ->
  exists a b gs', s = a ++ b /\ denotes r1 a gs gs' /\ denotes r2 b gs' gs''.
Proof. inversion 1; subst; eauto 6. Qed.

Lemma denotes_times_S n r (s : str) (gs gs'' : groups) :
  denotes (Times (S n) r) s gs gs'' ->
  exists a b gs', s = a ++ b /\ denotes r a gs gs'
                  /\ denotes (Times n r) b gs' gs''.
Proof. inversion 1; subst; eauto 6. Qed.

Lemma denotes_times_0 r (s : str) (gs gs' : groups) :
  denotes (Times 0 r) s gs gs' -> s = [] /\ gs' = gs.
Proof. inversion 1; subst; auto. Qed.

Lemma denotes_group r (s : str) (gs gs'' : groups) :
  denotes (Group r) s gs gs'' ->
  exists gs', gs'' = gs' ++ [s] /\ denotes r s gs gs'.
Proof. inversion 1; subst; eauto. Qed.

Lemma denotes_plus p (s : str) (gs gs' : groups) :
  denotes (Plus p) s gs gs' <-> (s <> [] /\ all_in p s) /\ gs' = gs.
Proof.
  split.
  - intros H. apply denotes_rep in H. destruct H as (Ha & Hlo & _ & ->).
    repeat split; auto. intros ->. simpl in Hlo. lia.
  - intros [[Hne Ha] ->]. constructor; auto; [|exact I].
    destruct s; [contradiction|simpl; lia].
Qed.

Ltac invert_denotes :=
  repeat match goal with
    | H : denotes (Seq _ _) _ _ _ |- _ =>
        apply denotes_seq in H; destruct H as (? & ? & ? & ? & ? & ?)
    | H : denotes (Group _) _ _ _ |- _ =>
        apply denotes_group in H; destruct H as (? & ? & ?)
    | H : denotes (Times (S _) _) _ _ _ |- _ =>
        apply denotes_times_S in H; destruct H as (? & ? & ? & ? & ? & ?)
    | H : denotes (Times 0 _) _ _ _ |- _ =>
        apply denotes_times_0 in H; destruct H as (? & ?)
    | H : denotes (Lit _) _ _ _ |- _ =>
        apply denotes_lit in H; destruct H as (? & ?)
    | H : denotes (Plus _) _ _ _ |- _ =>
        apply denotes_plus in H; destruct H as (? & ?)
    | H : denotes (Rep _ _ _) _ _ _ |- _ =>
        apply denotes_rep in H; destruct H as (? & ? & ? & ?)
    end; subst.

(** ** The ARP pattern *)

Lemma arp_pattern_inv (a : str) (g : groups) :
  denotes arp_pattern a [] g ->
  exists ip ws tok,
    a = ip ++ ws ++ tok /\ g = [ip; tok]
    /\ dotted_quad ip /\ blanks ws /\ mac_token 14 tok.
Proof.
  unfold arp_pattern. intros H. invert_denotes.
  match goal with
  | |- exists ip ws tok, (?i ++ ?w ++ ?t) = _ /\ _ =>
      exists i, w, t
  end.
  split; [reflexivity|]. split; [reflexivity|].
  split; [|split; [assumption|split; [assumption|simpl in *; lia]]].
  match goal with
  | |- dotted_quad (?a ++ (_ ++ ?b) ++ (_ ++ ?c) ++ (_ ++ ?d) ++ []) =>
      exists a, b, c, d
  end.
  rewrite app_nil_r, <- !app_assoc. auto.
Qed.

Lemma arp_pattern_intro (ip ws tok : str) :
  dotted_quad ip -> blanks ws -> mac_token 14 tok ->
  denotes arp_pattern (ip ++ ws ++ tok) [] [ip; tok].
Proof.
  intros (a & b & c & d & -> & Ha & Hb & Hc & Hd) Hws [Ht Hl].
  unfold arp_pattern.
  apply D_Seq with (gs' := [] ++ [a ++ py "." ++ b ++ py "." ++ c ++ py "." ++ d]).
  - apply D_Group.
    apply D_Seq with (gs' := []); [now apply denotes_plus|].
    replace (py "." ++ b ++ py "." ++ c ++ py "." ++ d)
      with ((py "." ++ b) ++ (py "." ++ c) ++ (py "." ++ d) ++ [])
      by (rewrite app_nil_r, <- !app_assoc; reflexivity).
    repeat (eapply D_TimesS;
            [eapply D_Seq; [apply D_Lit | now apply denotes_plus]|]).
    apply D_Times0.
  - eapply D_Seq; [now apply denotes_plus|].
    apply (D_Group (r := Rep 14 (Some 17) is_mac_char) (gs := [_]) (gs' := [_])).
    constructor; simpl; auto; lia.
Qed.

Lemma canonical_mac_char (c : ascii) :
  is_mac_char c = true ->
  is_canonical_mac_char
    ((fun x => if Ascii.eqb x "-" then ":"%char else x) (lower_char c)) = true.
Proof. each_char c. Qed.

Lemma canonical_mac (tok : str) :
  all_in is_mac_char tok ->
  all_in is_canonical_mac_char (replace_char "-" ":" (lower tok)).
Proof.
  unfold replace_char, lower. induction 1 as [|c tok Hc _ IH]; simpl.
  - constructor.
  - constructor; [now apply canonical_mac_char|exact IH].
Qed.

Lemma arp_line_sound (line ip mac : str) :
  arp_line line = Some (ip, mac) ->
  exists pre ws tok post,
    line = pre ++ ip ++ ws ++ tok ++ post
    /\ dotted_quad ip /\ blanks ws /\ mac_token 14 tok
    /\ mac = replace_char "-" ":" (lower tok).
Proof.
  unfold arp_line. destruct (search arp_pattern line) as [g|] eqn:S;
    [|discriminate].
  apply search_sound in S. destruct S as (pre & a & post & -> & D).
  apply arp_pattern_inv in D.
  destruct D as (ip' & ws & tok & -> & -> & Hq & Hws & Ht).
  intros H. injection H as <- <-.
  exists pre, ws, tok, post. rewrite <- !app_assoc. auto.
Qed.

Lemma arp_line_complete (line : str) :
  has_arp_pair 14 line -> arp_line line <> None.
Proof.
  intros (pre & ip & ws & tok & post & -> & Hq & Hws & Ht).
  pose proof (arp_pattern_intro Hq Hws Ht) as D.
  pose proof (search_complete pre post D) as S.
  unfold arp_line. rewrite <- !app_assoc in S.
  destruct (search arp_pattern _) as [g|] eqn:E; [|contradiction].
  apply search_sound in E. destruct E as (? & ? & ? & _ & D').
  apply arp_pattern_inv in D'. destruct D' as (? & ? & ? & _ & -> & _).
  discriminate.
Qed.

Lemma arp_line_none (line : str) :
  ~ has_arp_pair 14 line -> arp_line line = None.
Proof.
  intros Hn. destruct (arp_line line) as [[ip mac]|] eqn:E; [|reflexivity].
  exfalso. apply Hn. apply arp_line_sound in E.
  destruct E as (pre & ws & tok & post & -> & Hq & Hws & Ht & _).
  now exists pre, ip, ws, tok, post.
Qed.

Lemma arp_lines_app (l1 l2 : list str) :
  arp_lines (l1 ++ l2) = arp_lines l1 ++ arp_lines l2.
Proof.
  induction l1 as [|l l1 IH]; simpl; [reflexivity|].
  destruct (arp_line l); simpl; now rewrite IH.
Qed.

(** ** Lines *)

Lemma splitlines_from_LF (cur t2 : str) :
  splitlines_from cur (LF :: t2) = rev cur :: splitlines t2.
Proof.
  unfold splitlines. simpl. f_equal. now destruct t2.
Qed.

(** A text, a line feed, a second text: the lines of the first, possibly
    one empty line, the lines of the second. *)
Lemma splitlines_from_app (n : nat) :
  forall (t1 cur t2 : str),
    List.length t1 <= n ->
    exists extra,
      (extra = [] \/ extra = [[]])
      /\ splitlines_from cur (t1 ++ LF :: t2)
         = splitlines_from cur t1 ++ extra ++ splitlines t2.
Proof.
  induction n as [|n IH]; intros t1 cur t2 Hn.
  - destruct t1; [|simpl in Hn; lia]. rewrite app_nil_l, splitlines_from_LF.
    destruct cur as [|c cur].
    + exists [[]]. split; [now right|reflexivity].
    + exists []. split; [now left|reflexivity].
  - destruct t1 as [|c t1].
    + apply (IH [] cur t2). simpl. lia.
    + simpl in Hn. change ((c :: t1) ++ LF :: t2) with (c :: (t1 ++ LF :: t2)).
      cbn [splitlines_from]. destruct (is_linebreak c) eqn:Hc.
      * destruct t1 as [|d t1].
        -- cbn [app]. change (code LF =? 10) with true. rewrite andb_true_r.
           destruct (code c =? 13).
           ++ exists []. split; [now left|reflexivity].
           ++ exists [[]]. split; [now right|].
              now rewrite splitlines_from_LF.
        -- change ((d :: t1) ++ LF :: t2) with (d :: (t1 ++ LF :: t2)).
           cbv iota.
           destruct ((code c =? 13) && (code d =? 10)).
           ++ destruct (IH t1 [] t2) as (extra & He & E);
                [simpl in Hn; lia|].
              exists extra. split; [exact He|]. now rewrite E.
           ++ destruct (IH (d :: t1) [] t2) as (extra & He & E);
                [simpl in *; lia|].
              exists extra. split; [exact He|].
              change (d :: t1 ++ LF :: t2) with ((d :: t1) ++ LF :: t2).
              now rewrite E.
      * apply IH. lia.
Qed.

Lemma arp_line_empty : arp_line [] = None.
Proof. reflexivity. Qed.

(** The entries of a text made of two texts joined by a line feed are those
    of the first followed by those of the second. *)
Lemma get_arp_entries_app (t1 t2 : str) :
  get_arp_entries (Ok (t1 ++ LF :: t2))
  = get_arp_entries (Ok t1) ++ get_arp_entries (Ok t2).
Proof.
  unfold get_arp_entries, splitlines.
  destruct (@splitlines_from_app _ t1 [] t2 (le_n _)) as (extra & He & E).
  rewrite E, !arp_lines_app. f_equal.
  destruct He as [-> | ->]; reflexivity.
Qed.

Ltac all_in_auto := unfold all_in; repeat constructor.

(** C3, as stated, fails: a line with a dotted quad followed by a
    hardware address of twelve characters is not read; the pattern asks for
    fourteen at least. *)
Lemma parse_skips_12_chars :
  has_arp_pair 12 line_12_chars
  /\ arp_line line_12_chars = None
  /\ get_arp_entries (Ok line_12_chars) = [].
Proof.
  split; [|split; reflexivity].
  exists (py "  "), (py "192.168.1.10"), (py "          "),
    (py "28cdc1aabbcc"), (py "          dynamic").
  split; [reflexivity|]. split; [|split].
  - exists (py "192"), (py "168"), (py "1"), (py "10").
    split; [reflexivity|].
    repeat split; try discriminate; all_in_auto.
  - split; [discriminate|all_in_auto].
  - split; [all_in_auto|simpl; lia].
Qed.

(** C3, amended.  The entries are read line by line, in the order of the
    lines; a line gives an entry exactly when it holds a dotted quad, white
    space and 14 to 17 characters among the hexadecimal digits, [:] and [-];
    any other line is passed over; the address of an entry is such a token
    in lower case with [:] for [-]. *)
Theorem get_arp_entries_parses (out : str) :
  get_arp_entries (Ok out) = arp_lines (splitlines out)
  /\ (forall line ls,
        arp_lines (line :: ls)
        = match arp_line line with Some e => [e] | None => [] end
          ++ arp_lines ls)
  /\ (forall line, has_arp_pair 14 line <-> exists e, arp_line line = Some e)
  /\ (forall line, ~ has_arp_pair 14 line -> arp_line line = None)
  /\ (forall line ip mac,
        arp_line line = Some (ip, mac) ->
        exists pre ws tok post,
          line = pre ++ ip ++ ws ++ tok ++ post
          /\ dotted_quad ip /\ blanks ws /\ mac_token 14 tok
          /\ mac = replace_char "-" ":" (lower tok)
          /\ all_in is_canonical_mac_char mac
          /\ 14 <= List.length mac <= 17)
  /\ (forall t1 t2,
        get_arp_entries (Ok (t1 ++ LF :: t2))
        = get_arp_entries (Ok t1) ++ get_arp_entries (Ok t2)).
Proof.
  split; [reflexivity|]. split; [|split; [|split; [|split]]].
  - intros line ls. simpl. now destruct (arp_line line).
  - intros line. split.
    + intros H. apply arp_line_complete in H.
      destruct (arp_line line) as [e|]; [now exists e|contradiction].
    + intros [[ip mac] H]. apply arp_line_sound in H.
      destruct H as (pre & ws & tok & post & -> & Hq & Hws & Ht & _).
      now exists pre, ip, ws, tok, post.
  - apply arp_line_none.
  - intros line ip mac H. apply arp_line_sound in H.
    destruct H as (pre & ws & tok & post & -> & Hq & Hws & Ht & ->).
    exists pre, ws, tok, post.
    assert (L : List.length (replace_char "-" ":" (lower tok)) = List.length tok)
      by (unfold replace_char, lower; now rewrite !length_map).
    rewrite L.
    pose proof (canonical_mac (proj1 Ht)) as C.
    destruct Ht as [Ht1 Ht2]. unfold mac_token. tauto.
  - apply get_arp_entries_app.
Qed.

Lemma get_arp_entries_parses_witness :
  arp_line (py "  192.168.1.10          28-CD-C1-AA-BB-CC     dynamic")
  = Some (py "192.168.1.10", py "28:cd:c1:aa:bb:cc")
  /\ exists pre ws tok post,
      py "  192.168.1.10          28-CD-C1-AA-BB-CC     dynamic"
      = pre ++ py "192.168.1.10" ++ ws ++ tok ++ post
      /\ dotted_quad (py "192.168.1.10") /\ blanks ws /\ mac_token 14 tok
      /\ py "28:cd:c1:aa:bb:cc" = replace_char "-" ":" (lower tok)
      /\ all_in is_canonical_mac_char (py "28:cd:c1:aa:bb:cc")
      /\ 14 <= List.length (py "28:cd:c1:aa:bb:cc") <= 17.
Proof.
  split; [reflexivity|].
  apply (proj1 (proj2 (proj2 (proj2 (proj2 (get_arp_entries_parses [])))))
           (py "  192.168.1.10          28-CD-C1-AA-BB-CC     dynamic")).
  reflexivity.
Defined.

(** ** No fatal error *)

Lemma arp_lines_nil (ls : list str) :
  (forall line, In line ls -> ~ has_arp_pair 14 line) -> arp_lines ls = [].
Proof.
  induction ls as [|l ls IH]; intros H; simpl; [reflexivity|].
  rewrite (arp_line_none (H l (or_introl eq_refl))).
  apply IH. intros line Hin. apply H. now right.
Qed.

Lemma report_nonempty (ms : list found) : report ms <> [].
Proof. destruct ms as [|[[d i] m] ms]; discriminate. Qed.

Lemma printed_app (t1 t2 : list event) :
  printed (t1 ++ t2) = printed t1 ++ printed t2.
Proof.
  induction t1 as [|e t1 IH]; simpl; [reflexivity|].
  destruct e; simpl; now rewrite IH.
Qed.

Lemma printed_prints (ls : list str) : printed (map EPrint ls) = ls.
Proof. induction ls as [|l ls IH]; simpl; [reflexivity|now rewrite IH]. Qed.

Lemma sweeps_app (t1 t2 : list event) :
  sweeps (t1 ++ t2) = sweeps t1 ++ sweeps t2.
Proof.
  induction t1 as [|e t1 IH]; simpl; [reflexivity|].
  destruct e; simpl; now rewrite IH.
Qed.

Lemma sweeps_prints (ls : list str) : sweeps (map EPrint ls) = [].
Proof. induction ls as [|l ls IH]; simpl; [reflexivity|exact IH]. Qed.

Lemma main_printed (w : World) :
  printed (fst (main w)) = report (snd (main w)).
Proof.
  unfold main. destruct (passive_matches w) as [|m ms]; cbn [fst snd].
  - rewrite !printed_app, printed_prints.
    destruct (ping_sweep (sweep_argument w)); reflexivity.
  - rewrite printed_app, printed_prints. reflexivity.
Qed.

(** C7. Reading the cache never fails: a command that could not be run, an
    empty output, the header alone and any text none of whose lines holds an
    address pair all give the empty list; and every run, whatever the machine
    answers, ends with its report. *)
Theorem parse_never_fails (out : str) (w : World) :
  get_arp_entries Failed = []
  /\ get_arp_entries (Ok []) = []
  /\ get_arp_entries (Ok arp_header_only) = []
  /\ ((forall line, In line (splitlines out) -> ~ has_arp_pair 14 line) ->
      get_arp_entries (Ok out) = [])
  /\ (arp_before w = Failed -> passive_matches w = [])
  /\ (printed (fst (main w)) = report (snd (main w))
      /\ printed (fst (main w)) <> []).
Proof.
  split; [reflexivity|]. split; [reflexivity|]. split; [reflexivity|].
  split; [|split; [|split]].
  - apply arp_lines_nil.
  - unfold passive_matches. now intros ->.
  - apply main_printed.
  - rewrite main_printed. apply report_nonempty.
Qed.

(** ** The argument of the sweep *)

(** C10. A string that does not split at its dots into three or four parts
    makes [ping_sweep] return at once, before any queue or thread exists;
    a sweep takes a list, a string of three parts or a string of four. *)
Theorem ping_sweep_other_strings (s : str) :
  List.length (split "." s) <> 3 ->
  List.length (split "." s) <> 4 ->
  ping_sweep (ArgStr s) = None
  /\ sweep_events (ping_sweep (ArgStr s)) = []
  /\ (forall arg ips,
        ping_sweep arg = Some ips ->
        (arg = ArgList ips)
        \/ (exists p, arg = ArgStr p /\ List.length (split "." p) = 3
                      /\ ips = host_block p)
        \/ (exists a, arg = ArgStr a /\ List.length (split "." a) = 4
                      /\ ips = host_block (join (py ".") (firstn 3 (split "." a))))).
Proof.
  intros H3 H4.
  assert (E : ping_sweep (ArgStr s) = None).
  { unfold ping_sweep, sweep_ips.
    destruct (Nat.eqb_spec (List.length (split "." s)) 4); [contradiction|].
    destruct (Nat.eqb_spec (List.length (split "." s)) 3); [contradiction|].
    reflexivity. }
  split; [exact E|]. split; [now rewrite E|].
  intros [l|p] ips; unfold ping_sweep, sweep_ips.
  - intros H. injection H as ->. now left.
  - destruct (Nat.eqb_spec (List.length (split "." p)) 4) as [L4|_].
    + intros H. injection H as <-. right. right. now exists p.
    + destruct (Nat.eqb_spec (List.length (split "." p)) 3) as [L3|_];
        [|discriminate].
      intros H. injection H as <-. right. left. now exists p.
Qed.

Lemma ping_sweep_other_strings_witness :
  ping_sweep (ArgStr []) = None
  /\ ping_sweep (ArgStr (py "router.local")) = None.
Proof.
  split.
  - apply (ping_sweep_other_strings []); simpl; discriminate.
  - apply (ping_sweep_other_strings (py "router.local")); simpl; discriminate.
Defined.

(** ** The two phases *)

Lemma count_events_app f (t1 t2 : list event) :
  count_events f (t1 ++ t2) = count_events f t1 + count_events f t2.
Proof. unfold count_events. now rewrite filter_app, length_app. Qed.

Lemma count_events_prints f (ls : list str) :
  f = is_arp \/ f = is_ipconfig \/ f = is_sweep ->
  count_events f (map EPrint ls) = 0.
Proof.
  unfold count_events.
  intros [-> | [-> | ->]]; induction ls as [|l ls IH]; simpl; auto.
Qed.

Lemma count_sweep_events f (o : option (list str)) :
  count_events f (sweep_events o) <= 1.
Proof.
  destruct o; unfold count_events; simpl; [|lia].
  destruct (f (ESweep l)); simpl; lia.
Qed.

(** C9. When the first reading of the cache gives a match, the run is that
    reading and the report: [ipconfig] is not run, nothing is swept, the
    cache is not read again.  No run sweeps more than once or reads the cache
    more than twice, and a run that ends without a match prints the one line
    that says so. *)
Theorem passive_match_ends_run (w : World) :
  (passive_matches w <> [] ->
     fst (main w) = EArp :: map EPrint (report (passive_matches w))
     /\ snd (main w) = passive_matches w
     /\ count_events is_ipconfig (fst (main w)) = 0
     /\ count_events is_sweep (fst (main w)) = 0
     /\ count_events is_arp (fst (main w)) = 1)
  /\ count_events is_sweep (fst (main w)) <= 1
  /\ count_events is_ipconfig (fst (main w)) <= 1
  /\ count_events is_arp (fst (main w)) <= 2
  /\ (snd (main w) = [] -> printed (fst (main w)) = [no_match_message]).
Proof.
  split; [|split; [|split; [|split]]].
  - intros Hne. unfold main.
    destruct (passive_matches w) as [|m ms] eqn:E; [contradiction|].
    cbn [fst snd app]. repeat split.
    + change (EArp :: map EPrint (report (m :: ms)))
        with ([EArp] ++ map EPrint (report (m :: ms))).
      rewrite count_events_app, count_events_prints by auto. reflexivity.
    + change (EArp :: map EPrint (report (m :: ms)))
        with ([EArp] ++ map EPrint (report (m :: ms))).
      rewrite count_events_app, count_events_prints by auto. reflexivity.
    + change (EArp :: map EPrint (report (m :: ms)))
        with ([EArp] ++ map EPrint (report (m :: ms))).
      rewrite count_events_app, count_events_prints by auto. reflexivity.
  - unfold main. destruct (passive_matches w); cbn [fst].
    + rewrite !count_events_app, count_events_prints by auto.
      pose proof (count_sweep_events is_sweep (ping_sweep (sweep_argument w))).
      change (count_events is_sweep [EArp; EIpconfig]) with 0.
      change (count_events is_sweep [EArp]) with 0. lia.
    + rewrite count_events_app, count_events_prints by auto.
      change (count_events is_sweep [EArp]) with 0. lia.
  - unfold main. destruct (passive_matches w); cbn [fst].
    + rewrite !count_events_app, count_events_prints by auto.
      assert (count_events is_ipconfig
                (sweep_events (ping_sweep (sweep_argument w))) = 0)
        by (now destruct (ping_sweep (sweep_argument w))).
      change (count_events is_ipconfig [EArp; EIpconfig]) with 1.
      change (count_events is_ipconfig [EArp]) with 0. lia.
    + rewrite count_events_app, count_events_prints by auto.
      change (count_events is_ipconfig [EArp]) with 0. lia.
  - unfold main. destruct (passive_matches w); cbn [fst].
    + rewrite !count_events_app, count_events_prints by auto.
      assert (count_events is_arp
                (sweep_events (ping_sweep (sweep_argument w))) = 0)
        by (now destruct (ping_sweep (sweep_argument w))).
      change (count_events is_arp [EArp; EIpconfig]) with 1.
      change (count_events is_arp [EArp]) with 1. lia.
    + rewrite count_events_app, count_events_prints by auto.
      change (count_events is_arp [EArp]) with 1. lia.
  - intros H. rewrite main_printed, H. reflexivity.
Qed.

(** ** Numbers as text *)

Lemma py_inj (a b : string) : py a = py b -> a = b.
Proof.
  unfold py. intros H.
  rewrite <- (string_of_list_ascii_of_string a),
          <- (string_of_list_ascii_of_string b).
  now rewrite H.
Qed.

Lemma str_of_nat_inj (n m : nat) : str_of_nat n = str_of_nat m -> n = m.
Proof.
  unfold str_of_nat. intros H. apply py_inj in H.
  apply DecimalNat.Unsigned.to_uint_inj.
  assert (E : NilEmpty.uint_of_string (NilEmpty.string_of_uint (Nat.to_uint n))
              = NilEmpty.uint_of_string (NilEmpty.string_of_uint (Nat.to_uint m)))
    by now rewrite H.
  rewrite !NilEmpty.usu in E. now injection E.
Qed.

Lemma to_uint_not_nil (n : nat) : Nat.to_uint n <> Decimal.Nil.
Proof.
  intros H.
  pose proof (DecimalNat.Unsigned.to_of (Nat.to_uint n)) as E.
  rewrite DecimalNat.Unsigned.of_to, H in E. discriminate.
Qed.

Lemma string_of_uint_digits (d : Decimal.uint) :
  all_in is_digit (py (NilEmpty.string_of_uint d)).
Proof.
  induction d; simpl; constructor; auto.
Qed.

Lemma str_of_nat_digits (n : nat) : digits (str_of_nat n).
Proof.
  split; [|apply string_of_uint_digits].
  unfold str_of_nat. pose proof (to_uint_not_nil n) as H.
  destruct (Nat.to_uint n); try contradiction; discriminate.
Qed.

Lemma nat_of_str_of_nat (n : nat) : nat_of_str (str_of_nat n) = Some n.
Proof.
  unfold nat_of_str, str_of_nat, py.
  rewrite string_of_list_ascii_of_string, NilEmpty.usu. simpl.
  now rewrite DecimalNat.Unsigned.of_to.
Qed.

Lemma octet_of_str_of_nat (n : nat) :
  n <= 255 -> octet_of_str (str_of_nat n) = Some (Z.of_nat n).
Proof.
  intros H. unfold octet_of_str. rewrite nat_of_str_of_nat.
  apply Nat.leb_le in H. rewrite H.
  now rewrite (proj2 (str_eqb_eq _ _) eq_refl).
Qed.

(** ** Splitting at dots *)

Lemma digit_not_dot (c : ascii) : is_digit c = true -> not_dot c = true.
Proof. each_char c. Qed.

Lemma digits_no_dot (s : str) : all_in is_digit s -> all_in not_dot s.
Proof.
  induction 1; constructor; auto using digit_not_dot.
Qed.

Lemma split_no_dot (s : str) : all_in not_dot s -> split "." s = [s].
Proof.
  induction 1 as [|c s Hc _ IH]; simpl; [reflexivity|].
  unfold not_dot in Hc. apply negb_true_iff in Hc. rewrite Hc, IH. reflexivity.
Qed.

Lemma split_dot (a rest : str) :
  all_in not_dot a -> split "." (a ++ py "." ++ rest) = a :: split "." rest.
Proof.
  induction 1 as [|c s Hc _ IH]; simpl; [reflexivity|].
  unfold not_dot in Hc. apply negb_true_iff in Hc.
  simpl in IH. rewrite Hc, IH. reflexivity.
Qed.

Lemma split_dotted_quad (a b c d : str) :
  all_in is_digit a -> all_in is_digit b -> all_in is_digit c ->
  all_in is_digit d ->
  split "." (a ++ py "." ++ b ++ py "." ++ c ++ py "." ++ d) = [a; b; c; d].
Proof.
  intros Ha Hb Hc Hd.
  rewrite !split_dot, split_no_dot; auto using digits_no_dot.
Qed.

(** ** Addresses as 32-bit values *)

Local Open Scope Z_scope.

Lemma testbit_above (a n k : Z) :
  0 <= a < 2 ^ k -> 0 <= k <= n -> Z.testbit a n = false.
Proof.
  intros [Ha Hlt] Hk.
  destruct (Z.eq_dec a 0) as [->|Hne]; [apply Z.bits_0|].
  apply Z.bits_above_log2; [exact Ha|].
  assert (Z.log2 a < k) by (apply Z.log2_lt_pow2; lia). lia.
Qed.

Lemma lor_shiftl_add (hi lo k : Z) :
  0 <= k -> 0 <= lo < 2 ^ k ->
  Z.lor (Z.shiftl hi k) lo = hi * 2 ^ k + lo.
Proof.
  intros Hk Hlo.
  assert (E : Z.land (Z.shiftl hi k) lo = 0).
  { apply Z.bits_inj'. intros n Hn. rewrite Z.land_spec, Z.bits_0.
    destruct (Z.lt_ge_cases n k).
    - now rewrite Z.shiftl_spec_low.
    - rewrite (testbit_above (a := lo) (n := n) (k := k)) by lia.
      apply andb_false_r. }
  pose proof (Z.add_lor_land (Z.shiftl hi k) lo) as A.
  rewrite E in A. rewrite Z.shiftl_mul_pow2 in * by lia. lia.
Qed.

Lemma lt_pow2_lor (a b n : Z) :
  0 <= n -> 0 <= a < 2 ^ n -> 0 <= b < 2 ^ n -> 0 <= Z.lor a b < 2 ^ n.
Proof.
  intros Hn Ha Hb.
  assert (H0 : 0 <= Z.lor a b) by (apply Z.lor_nonneg; lia).
  split; [exact H0|].
  destruct (Z.eq_dec (Z.lor a b) 0) as [->|Hne]; [lia|].
  apply Z.log2_lt_pow2; [lia|]. rewrite Z.log2_lor by lia.
  destruct (Z.eq_dec a 0) as [->|Ha0]; destruct (Z.eq_dec b 0) as [->|Hb0].
  - simpl in Hne. contradiction.
  - rewrite Z.max_r by (simpl; apply Z.log2_nonneg).
    apply Z.log2_lt_pow2; lia.
  - rewrite Z.max_l by (simpl; apply Z.log2_nonneg).
    apply Z.log2_lt_pow2; lia.
  - apply Z.max_lub_lt; apply Z.log2_lt_pow2; lia.
Qed.

Lemma lt_pow2_land (a b n : Z) :
  0 <= n -> 0 <= a < 2 ^ n -> 0 <= b -> 0 <= Z.land a b < 2 ^ n.
Proof.
  intros Hn Ha Hb.
  assert (H0 : 0 <= Z.land a b) by (apply Z.land_nonneg; lia).
  split; [exact H0|].
  destruct (Z.eq_dec (Z.land a b) 0) as [->|Hne]; [lia|].
  apply Z.log2_lt_pow2; [lia|].
  pose proof (Z.log2_land a b (proj1 Ha) Hb) as L.
  destruct (Z.eq_dec a 0) as [->|Ha0]; [now rewrite Z.land_0_l in Hne|].
  assert (Z.log2 a < n) by (apply Z.log2_lt_pow2; lia). lia.
Qed.

Lemma quad_value_range (a b c d : nat) :
  (a <= 255)%nat -> (b <= 255)%nat -> (c <= 255)%nat -> (d <= 255)%nat ->
  0 <= quad_value a b c d < 2 ^ 32.
Proof. unfold quad_value. lia. Qed.

Lemma inet_aton_quad (a b c d : nat) :
  (a <= 255)%nat -> (b <= 255)%nat -> (c <= 255)%nat -> (d <= 255)%nat ->
  inet_aton (quad a b c d) = Some (quad_value a b c d).
Proof.
  intros Ha Hb Hc Hd. unfold inet_aton, quad.
  rewrite split_dotted_quad by apply str_of_nat_digits.
  cbn [map]. rewrite !octet_of_str_of_nat by assumption.
  f_equal. unfold quad_value.
  rewrite (lor_shiftl_add (Z.of_nat c) (lo := Z.of_nat d) (k := 8)) by lia.
  rewrite (lor_shiftl_add (Z.of_nat b) (k := 16)) by lia.
  rewrite (lor_shiftl_add (Z.of_nat a) (k := 24)) by lia.
  lia.
Qed.

Lemma octet_value (i k : Z) :
  0 <= k -> Z.land (Z.shiftr i k) 255 = (i / 2 ^ k) mod 256.
Proof.
  intros Hk. change 255 with (Z.ones 8).
  rewrite Z.land_ones, Z.shiftr_div_pow2 by lia. reflexivity.
Qed.

Lemma dotted_quad_value (i : Z) :
  dotted i = quad (Z.to_nat ((i / 2 ^ 24) mod 256)) (Z.to_nat ((i / 2 ^ 16) mod 256))
                  (Z.to_nat ((i / 2 ^ 8) mod 256)) (Z.to_nat (i mod 256)).
Proof.
  unfold dotted, quad, octet. rewrite !octet_value by lia.
  change (2 ^ 0) with 1. rewrite Z.div_1_r. reflexivity.
Qed.

Lemma int2ip_dotted (i : Z) :
  0 <= i < 2 ^ 32 -> _int2ip i = Some (dotted i).
Proof.
  intros [H0 H1]. unfold _int2ip.
  apply Z.leb_le in H0. rewrite H0.
  assert (H2 : (i <=? 4294967295) = true) by (apply Z.leb_le; lia).
  rewrite H2. reflexivity.
Qed.

Lemma Some_inj {A : Type} (x y : A) : Some x = Some y -> x = y.
Proof. intros H. now injection H. Qed.

Lemma int2ip_some (i : Z) (s : str) :
  _int2ip i = Some s -> 0 <= i < 2 ^ 32 /\ s = dotted i.
Proof.
  unfold _int2ip.
  destruct (Z.leb_spec 0 i); [|discriminate].
  destruct (Z.leb_spec i 4294967295); [|discriminate].
  cbn [andb]. intros E. apply Some_inj in E. subst s.
  split; [|reflexivity]. change (2 ^ 32)%Z with 4294967296%Z. lia.
Qed.

(** Reading a printed address gives the value back. *)
Lemma ip2int_dotted (i : Z) :
  0 <= i < 2 ^ 32 -> _ip2int (dotted i) = Some i.
Proof.
  intros Hi. unfold _ip2int. rewrite dotted_quad_value.
  assert (B : forall x, (Z.to_nat (x mod 256) <= 255)%nat).
  { intros x. pose proof (Z.mod_pos_bound x 256). lia. }
  rewrite inet_aton_quad by apply B.
  f_equal. unfold quad_value.
  rewrite !Z2Nat.id by (apply Z.mod_pos_bound; lia).
  change (2 ^ 24) with 16777216. change (2 ^ 16) with 65536.
  change (2 ^ 8) with 256. change (2 ^ 32) with 4294967296 in Hi.
  Z.to_euclidean_division_equations. lia.
Qed.

Lemma dotted_inj (i j : Z) :
  0 <= i < 2 ^ 32 -> 0 <= j < 2 ^ 32 -> dotted i = dotted j -> i = j.
Proof.
  intros Hi Hj E.
  pose proof (ip2int_dotted Hi) as A. pose proof (ip2int_dotted Hj) as B.
  rewrite E in A. congruence.
Qed.

Local Close Scope Z_scope.

(** ** Enumerating a subnet *)

Lemma collect_map {A B : Type} (f : A -> option B) (g : A -> B) (l : list A) :
  (forall x, In x l -> f x = Some (g x)) -> collect f l = Some (map g l).
Proof.
  induction l as [|x l IH]; intros H; simpl; [reflexivity|].
  rewrite (H x (or_introl eq_refl)), IH; [reflexivity|].
  intros y Hy. apply H. now right.
Qed.

Lemma range_In (start stop x : Z) :
  In x (range start stop) <-> (start <= x < stop)%Z.
Proof.
  unfold range. rewrite in_map_iff. split.
  - intros (k & <- & Hk). apply in_seq in Hk. lia.
  - intros H. exists (Z.to_nat (x - start)). split; [lia|].
    apply in_seq. lia.
Qed.

Lemma range_length (start stop : Z) :
  List.length (range start stop) = Z.to_nat (stop - start).
Proof. unfold range. now rewrite length_map, length_seq. Qed.

Lemma range_nth (start stop : Z) (k : nat) :
  (k < Z.to_nat (stop - start))%nat ->
  nth k (range start stop) 0%Z = (start + Z.of_nat k)%Z.
Proof.
  intros Hk. unfold range.
  set (f := fun k : nat => (start + Z.of_nat k)%Z).
  rewrite (nth_indep _ 0%Z (f 0%nat))
    by now rewrite length_map, length_seq.
  rewrite map_nth, seq_nth by exact Hk. reflexivity.
Qed.

Lemma NoDup_map_in {A B : Type} (f : A -> B) (l : list A) :
  (forall x y, In x l -> In y l -> f x = f y -> x = y) ->
  NoDup l -> NoDup (map f l).
Proof.
  intros Hf. induction 1 as [|x l Hx Hl IH]; simpl; constructor.
  - intros Hin. apply in_map_iff in Hin. destruct Hin as (y & E & Hy).
    apply Hx. rewrite (Hf x y); auto; [now left|now right].
  - apply IH. intros a b Ha Hb. apply Hf; now right.
Qed.

Lemma range_NoDup (start stop : Z) : NoDup (range start stop).
Proof.
  unfold range. apply NoDup_map_in; [|apply seq_NoDup].
  intros x y _ _ H. lia.
Qed.

Lemma mask_to_prefix_quad (a b c d : nat) :
  (a <= 255)%nat -> (b <= 255)%nat -> (c <= 255)%nat -> (d <= 255)%nat ->
  _mask_to_prefix (quad a b c d)
  = Some (count_char "1" (bin (quad_value a b c d))).
Proof.
  intros. unfold _mask_to_prefix, _ip2int. now rewrite inet_aton_quad.
Qed.

Lemma host_block_quad (a b c : nat) :
  host_block (join (py ".") (firstn 3 (split "." (quad a b c 0))))
  = map (fun i => quad a b c i) (seq 1 254).
Proof.
  unfold quad. rewrite split_dotted_quad by apply str_of_nat_digits.
  unfold host_block. apply map_ext. intros i. cbn [firstn join].
  now rewrite <- !app_assoc.
Qed.

Lemma firstn3_split_quad (a b c d : nat) :
  firstn 3 (split "." (quad a b c d)) = firstn 3 (split "." (quad a b c 0)).
Proof.
  unfold quad. now rewrite !split_dotted_quad by apply str_of_nat_digits.
Qed.

Lemma broadcast_range (ip_i mask_i : Z) :
  (0 <= ip_i < 2 ^ 32)%Z -> (0 <= mask_i)%Z ->
  let net_base := Z.land ip_i mask_i in
  let bcast := Z.lor net_base (Z.land (Z.lnot mask_i) 0xFFFFFFFF) in
  (0 <= net_base < 2 ^ 32 /\ 0 <= bcast < 2 ^ 32)%Z.
Proof.
  intros Hi Hm net_base bcast.
  assert (Hb : (0 <= net_base < 2 ^ 32)%Z)
    by (apply lt_pow2_land; lia).
  split; [exact Hb|]. apply lt_pow2_lor; [lia|exact Hb|].
  change 0xFFFFFFFF%Z with (Z.ones 32). rewrite Z.land_ones by lia.
  apply Z.mod_pos_bound. lia.
Qed.

(** The netmask of prefix length [n], printed, has [n] as its
    [_mask_to_prefix]. *)
Lemma mask_to_prefix_contiguous (n : nat) :
  n <= 32 -> _mask_to_prefix (dotted (netmask_of_prefix n)) = Some n.
Proof.
  intros H.
  do 33 (destruct n as [|n]; [vm_compute; reflexivity|]). lia.
Qed.

Lemma scan_targets_narrow (a b c d ma mb mc md : nat) :
  a <= 255 -> b <= 255 -> c <= 255 -> d <= 255 ->
  ma <= 255 -> mb <= 255 -> mc <= 255 -> md <= 255 ->
  let net_base := Z.land (quad_value a b c d) (quad_value ma mb mc md) in
  let bcast :=
    Z.lor net_base (Z.land (Z.lnot (quad_value ma mb mc md)) 0xFFFFFFFF) in
  24 <= count_char "1" (bin (quad_value ma mb mc md)) ->
  scan_targets (quad a b c d) (quad ma mb mc md)
  = Some (map dotted (range (net_base + 1) bcast)).
Proof.
  intros Ha Hb Hc Hd Hma Hmb Hmc Hmd net_base bcast Hlen.
  pose proof (quad_value_range Ha Hb Hc Hd) as Ri.
  pose proof (quad_value_range Hma Hmb Hmc Hmd) as Rm.
  destruct (broadcast_range Ri (proj1 Rm)) as [Rb Rc].
  fold net_base in Rb. fold net_base bcast in Rc.
  unfold scan_targets. rewrite mask_to_prefix_quad by assumption.
  apply Nat.leb_le in Hlen. rewrite Hlen.
  unfold _ip2int. rewrite !inet_aton_quad by assumption.
  fold net_base bcast.
  replace (bcast - 1 + 1)%Z with bcast by lia.
  apply collect_map. intros x Hx. apply int2ip_dotted.
  apply range_In in Hx. lia.
Qed.

Lemma scan_targets_wide (a b c d ma mb mc md : nat) :
  ma <= 255 -> mb <= 255 -> mc <= 255 -> md <= 255 ->
  count_char "1" (bin (quad_value ma mb mc md)) < 24 ->
  scan_targets (quad a b c d) (quad ma mb mc md)
  = Some (map (fun i => quad a b c i) (seq 1 254)).
Proof.
  intros Hma Hmb Hmc Hmd Hlen. unfold scan_targets.
  rewrite mask_to_prefix_quad by assumption.
  apply Nat.ltb_lt in Hlen. rewrite Nat.ltb_antisym in Hlen.
  apply negb_true_iff in Hlen. rewrite Hlen.
  now rewrite firstn3_split_quad, host_block_quad.
Qed.

(** C2. For an address [a.b.c.d] and a netmask, both dotted quads: when the
    netmask has 24 ones or more, the targets are the addresses from the
    network's base plus one to the broadcast address minus one, in ascending
    order; when it has fewer, they are [a.b.c.1] to [a.b.c.254].  The number
    of ones is the prefix length of a netmask made of ones followed by
    zeros. *)
Theorem scan_targets_two_branches (a b c d ma mb mc md : nat) :
  a <= 255 -> b <= 255 -> c <= 255 -> d <= 255 ->
  ma <= 255 -> mb <= 255 -> mc <= 255 -> md <= 255 ->
  let ip_i := quad_value a b c d in
  let mask_i := quad_value ma mb mc md in
  let net_base := Z.land ip_i mask_i in
  let bcast := Z.lor net_base (Z.land (Z.lnot mask_i) 0xFFFFFFFF) in
  exists mask_len,
    _mask_to_prefix (quad ma mb mc md) = Some mask_len
    /\ (forall n, n <= 32 -> mask_i = netmask_of_prefix n -> mask_len = n)
    /\ (24 <= mask_len ->
        scan_targets (quad a b c d) (quad ma mb mc md)
        = Some (map dotted (range (net_base + 1) bcast))
        /\ (forall x, In x (range (net_base + 1) bcast)
                      <-> (net_base + 1 <= x <= bcast - 1)%Z)
        /\ (forall k, k < List.length (range (net_base + 1) bcast) ->
                      nth k (range (net_base + 1) bcast) 0%Z
                      = (net_base + 1 + Z.of_nat k)%Z)
        /\ (forall x, In x (range (net_base + 1) bcast) ->
                      _ip2int (dotted x) = Some x))
    /\ (mask_len < 24 ->
        scan_targets (quad a b c d) (quad ma mb mc md)
        = Some (map (fun i => quad a b c i) (seq 1 254))).
Proof.
  intros Ha Hb Hc Hd Hma Hmb Hmc Hmd ip_i mask_i net_base bcast.
  pose proof (quad_value_range Ha Hb Hc Hd) as Ri.
  pose proof (quad_value_range Hma Hmb Hmc Hmd) as Rm.
  destruct (broadcast_range Ri (proj1 Rm)) as [Rb Rc].
  fold ip_i mask_i net_base in Rb. fold ip_i mask_i net_base bcast in Rc.
  exists (count_char "1" (bin mask_i)).
  split; [now apply mask_to_prefix_quad|]. split; [|split].
  - intros n Hn E.
    pose proof (mask_to_prefix_contiguous Hn) as P.
    rewrite <- E in P. unfold _mask_to_prefix in P.
    rewrite ip2int_dotted in P by exact Rm. simpl in P. now injection P.
  - intros Hlen.
    assert (In_range : forall x, In x (range (net_base + 1) bcast)
                                 <-> (net_base + 1 <= x <= bcast - 1)%Z).
    { intros x. rewrite range_In. lia. }
    split; [|split; [exact In_range|split]].
    + now apply scan_targets_narrow.
    + intros k Hk. rewrite range_length in Hk. now apply range_nth.
    + intros x Hx. apply ip2int_dotted. apply In_range in Hx. lia.
  - intros Hlen. now apply scan_targets_wide.
Qed.

(** The two addresses of the specification: a /24 and a /16. *)
Example scan_targets_slash_24 :
  scan_targets (py "10.0.0.5") (py "255.255.255.0")
  = Some (map (fun i => py "10.0.0." ++ str_of_nat i) (seq 1 254)).
Proof. vm_compute. reflexivity. Qed.

Example scan_targets_slash_16 :
  scan_targets (py "10.0.5.5") (py "255.255.0.0")
  = Some (map (fun i => py "10.0.5." ++ str_of_nat i) (seq 1 254)).
Proof. vm_compute. reflexivity. Qed.

Lemma scan_targets_two_branches_witness :
  scan_targets (quad 10 0 0 5) (quad 255 255 255 0)
  = Some (map dotted (range (167772160 + 1) 167772415)).
Proof.
  destruct (@scan_targets_two_branches 10 0 0 5 255 255 255 0)
    as (len & L & _ & H & _); try lia.
  vm_compute in L. injection L as <-.
  apply (proj1 (H (le_n 24))).
Defined.

(** ** The block of 254 hosts *)

Lemma host_block_length (pref : str) : List.length (host_block pref) = 254.
Proof. unfold host_block. now rewrite length_map, length_seq. Qed.

Lemma host_block_In (pref s : str) :
  In s (host_block pref) <->
  exists i, 1 <= i <= 254 /\ s = pref ++ py "." ++ str_of_nat i.
Proof.
  unfold host_block. rewrite in_map_iff. split.
  - intros (i & <- & Hi). apply in_seq in Hi. exists i. split; [lia|reflexivity].
  - intros (i & Hi & ->). exists i. split; [reflexivity|]. apply in_seq. lia.
Qed.

Lemma host_block_NoDup (pref : str) : NoDup (host_block pref).
Proof.
  unfold host_block. apply NoDup_map_in; [|apply seq_NoDup].
  intros x y _ _ H. apply app_inv_head in H. apply app_inv_head in H.
  now apply str_of_nat_inj.
Qed.

Lemma host_block_not_In (pref : str) (n : nat) :
  n = 0 \/ 254 < n -> ~ In (pref ++ py "." ++ str_of_nat n) (host_block pref).
Proof.
  intros Hn Hin. apply host_block_In in Hin. destruct Hin as (i & Hi & E).
  apply app_inv_head in E. apply app_inv_head in E.
  apply str_of_nat_inj in E. lia.
Qed.

(** ** The local address *)

Lemma ipv4_pattern_inv (a : str) (g : groups) :
  denotes ipv4_pattern a [] g ->
  exists ws ip,
    a = py "IPv4 Address" ++ ws ++ py ": " ++ ip
    /\ all_in is_dot_or_blank ws /\ g = [ip] /\ dotted_quad ip.
Proof.
  unfold ipv4_pattern, Star. intros H. invert_denotes.
  match goal with
  | |- exists ws ip, _ ++ ?w ++ _ ++ ?i = _ /\ _ => exists w, i
  end.
  split; [reflexivity|]. split; [assumption|]. split; [reflexivity|].
  match goal with
  | |- dotted_quad (?a ++ _ ++ ?b ++ _ ++ ?c ++ _ ++ ?d) => exists a, b, c, d
  end.
  auto.
Qed.

Lemma get_local_ipv4_some (cfg : cmd_result) (ip : str) :
  get_local_ipv4 cfg = Some ip ->
  dotted_quad ip
  /\ exists out pre ws post,
      cfg = Ok out
      /\ out = pre ++ py "IPv4 Address" ++ ws ++ py ": " ++ ip ++ post
      /\ all_in is_dot_or_blank ws.
Proof.
  unfold get_local_ipv4. destruct cfg as [out|]; [|discriminate].
  destruct (search ipv4_pattern out) as [g|] eqn:S; [|discriminate].
  apply search_sound in S. destruct S as (pre & a & post & -> & D).
  apply ipv4_pattern_inv in D. destruct D as (ws & ip' & -> & Hws & -> & Hq).
  intros H. apply Some_inj in H. subst ip'. split; [exact Hq|].
  exists (pre ++ (py "IPv4 Address" ++ ws ++ py ": " ++ ip) ++ post), pre, ws, post.
  split; [reflexivity|]. split; [|exact Hws].
  now rewrite <- !app_assoc.
Qed.

Lemma dotted_quad_nonempty (ip : str) : dotted_quad ip -> ip <> [].
Proof.
  intros (a & b & c & d & -> & [Ha _] & _) E.
  destruct a; [contradiction|discriminate].
Qed.

Lemma sweep_ips_dotted_quad (a b c d : str) :
  digits a -> digits b -> digits c -> digits d ->
  sweep_ips (ArgStr (a ++ py "." ++ b ++ py "." ++ c ++ py "." ++ d))
  = Some (host_block (a ++ py "." ++ b ++ py "." ++ c)).
Proof.
  intros [_ Ha] [_ Hb] [_ Hc] [_ Hd]. unfold sweep_ips.
  rewrite split_dotted_quad by assumption. reflexivity.
Qed.

Lemma sweeps_main_active (w : World) :
  passive_matches w = [] ->
  sweeps (fst (main w))
  = match ping_sweep (sweep_argument w) with Some ips => [ips] | None => [] end.
Proof.
  intros E. unfold main. rewrite E. cbn [fst].
  change ([EArp; EIpconfig] ++ ?x) with (EArp :: EIpconfig :: x).
  cbn [sweeps]. rewrite !sweeps_app, sweeps_prints.
  destruct (ping_sweep (sweep_argument w)); reflexivity.
Qed.

Lemma sweeps_main_passive (w : World) :
  passive_matches w <> [] -> sweeps (fst (main w)) = [].
Proof.
  intros E. unfold main. destruct (passive_matches w); [contradiction|].
  cbn [fst app sweeps]. apply sweeps_prints.
Qed.

(** What [main] hands to [ping_sweep] always makes a block of 254 hosts. *)
Lemma ping_sweep_main (w : World) :
  exists pref,
    ping_sweep (sweep_argument w) = Some (host_block pref)
    /\ match get_local_ipv4 (ipconfig w) with
       | Some ip =>
           exists a b c d,
             ip = a ++ py "." ++ b ++ py "." ++ c ++ py "." ++ d
             /\ digits a /\ digits b /\ digits c /\ digits d
             /\ pref = a ++ py "." ++ b ++ py "." ++ c
       | None => pref = py "192.168.1"
       end.
Proof.
  unfold sweep_argument, ping_sweep.
  destruct (get_local_ipv4 (ipconfig w)) as [ip|] eqn:E.
  - destruct (get_local_ipv4_some _ E) as [Hq _].
    pose proof (dotted_quad_nonempty Hq) as Hne.
    destruct Hq as (a & b & c & d & -> & Ha & Hb & Hc & Hd).
    exists (a ++ py "." ++ b ++ py "." ++ c).
    split; [|now exists a, b, c, d].
    destruct (a ++ py "." ++ b ++ py "." ++ c ++ py "." ++ d) eqn:F;
      [contradiction|].
    rewrite <- F. now apply sweep_ips_dotted_quad.
  - exists (py "192.168.1"). split; reflexivity.
Qed.

(** ** Netmasks made of ones followed by zeros *)

Local Open Scope Z_scope.

Lemma dotted_as_quad (i : Z) :
  0 <= i < 2 ^ 32 ->
  exists ma mb mc md : nat,
    (ma <= 255 /\ mb <= 255 /\ mc <= 255 /\ md <= 255)%nat
    /\ dotted i = quad ma mb mc md /\ quad_value ma mb mc md = i.
Proof.
  intros Hi.
  assert (B : forall x, (Z.to_nat (x mod 256) <= 255)%nat).
  { intros x. pose proof (Z.mod_pos_bound x 256). lia. }
  exists (Z.to_nat ((i / 2 ^ 24) mod 256)), (Z.to_nat ((i / 2 ^ 16) mod 256)),
    (Z.to_nat ((i / 2 ^ 8) mod 256)), (Z.to_nat (i mod 256)).
  split; [auto|]. split; [apply dotted_quad_value|].
  pose proof (ip2int_dotted Hi) as E. unfold _ip2int in E.
  rewrite dotted_quad_value, inet_aton_quad in E by apply B.
  now apply Some_inj in E.
Qed.

Lemma netmask_range (n : nat) :
  (n <= 32)%nat -> 0 <= netmask_of_prefix n < 2 ^ 32.
Proof.
  intros H.
  do 33 (destruct n as [|n]; [vm_compute; split; [discriminate|reflexivity]|]).
  lia.
Qed.

Lemma netmask_host_bits (n : nat) :
  (24 <= n <= 32)%nat ->
  0 <= Z.land (Z.lnot (netmask_of_prefix n)) 0xFFFFFFFF <= 255.
Proof.
  intros H.
  do 33 (destruct n as [|n];
         [try lia; vm_compute; split; discriminate|]).
  lia.
Qed.

Lemma netmask_low_octet (n : nat) :
  (n <= 24)%nat ->
  Z.land (netmask_of_prefix n) 255 = 0
  /\ Z.land (Z.land (Z.lnot (netmask_of_prefix n)) 0xFFFFFFFF) 255 = 255.
Proof.
  intros H.
  do 25 (destruct n as [|n]; [vm_compute; split; reflexivity|]).
  lia.
Qed.

Lemma lor_le_add (a b : Z) : 0 <= a -> 0 <= b -> Z.lor a b <= a + b.
Proof.
  intros Ha Hb. pose proof (Z.add_lor_land a b) as E.
  assert (0 <= Z.land a b) by (apply Z.land_nonneg; lia). lia.
Qed.

Lemma quad_value_low_octet (a b c i : nat) :
  (i <= 255)%nat -> Z.land (quad_value a b c i) 255 = Z.of_nat i.
Proof.
  intros Hi. change 255 with (Z.ones 8). rewrite Z.land_ones by lia.
  unfold quad_value.
  change (2 ^ 24) with 16777216. change (2 ^ 16) with 65536.
  change (2 ^ 8) with 256.
  Z.to_euclidean_division_equations. lia.
Qed.

Local Close Scope Z_scope.

Lemma quad_last_inj (a b c i j : nat) : quad a b c i = quad a b c j -> i = j.
Proof.
  unfold quad. intros H. do 6 apply app_inv_head in H.
  now apply str_of_nat_inj.
Qed.

(** The targets for a netmask of prefix length [n]: at most 254, all
    different, and neither the base of the network nor its broadcast
    address among them. *)
Lemma scan_targets_bounded (a b c d n : nat) (ts : list str) :
  a <= 255 -> b <= 255 -> c <= 255 -> d <= 255 -> n <= 32 ->
  scan_targets (quad a b c d) (dotted (netmask_of_prefix n)) = Some ts ->
  let net_base := Z.land (quad_value a b c d) (netmask_of_prefix n) in
  let bcast :=
    Z.lor net_base (Z.land (Z.lnot (netmask_of_prefix n)) 0xFFFFFFFF) in
  List.length ts <= 254 /\ NoDup ts
  /\ ~ In (dotted net_base) ts /\ ~ In (dotted bcast) ts.
Proof.
  intros Ha Hb Hc Hd Hn E net_base bcast.
  pose proof (netmask_range Hn) as Rm.
  pose proof (quad_value_range Ha Hb Hc Hd) as Ri.
  destruct (dotted_as_quad Rm) as (ma & mb & mc & md & (Hma & Hmb & Hmc & Hmd) & Q & V).
  pose proof (mask_to_prefix_contiguous Hn) as P.
  rewrite Q, mask_to_prefix_quad, V in P by assumption.
  apply Some_inj in P.
  destruct (broadcast_range Ri (proj1 Rm)) as [Rb Rc].
  fold net_base in Rb. fold net_base bcast in Rc.
  rewrite Q in E.
  destruct (le_lt_dec 24 n) as [Hge|Hlt].
  - rewrite scan_targets_narrow in E by (rewrite ?V, ?P; assumption).
    rewrite V in E. fold net_base bcast in E. apply Some_inj in E. subst ts.
    pose proof (netmask_host_bits (conj Hge Hn)) as Hh.
    assert (Hbc : (bcast <= net_base + 255)%Z).
    { unfold bcast.
      pose proof (lor_le_add (proj1 Rb) (proj1 Hh)). lia. }
    assert (Inj : forall x y,
               In x (range (net_base + 1) bcast) ->
               In y (range (net_base + 1) bcast) ->
               dotted x = dotted y -> x = y).
    { intros x y Hx Hy. apply range_In in Hx. apply range_In in Hy.
      apply dotted_inj; lia. }
    split; [|split; [|split]].
    + rewrite length_map, range_length. lia.
    + apply NoDup_map_in; [exact Inj|apply range_NoDup].
    + intros Hin. apply in_map_iff in Hin. destruct Hin as (x & Ex & Hx).
      apply range_In in Hx. apply dotted_inj in Ex; lia.
    + intros Hin. apply in_map_iff in Hin. destruct Hin as (x & Ex & Hx).
      apply range_In in Hx. apply dotted_inj in Ex; lia.
  - rewrite scan_targets_wide in E by (rewrite ?V, ?P; assumption).
    apply Some_inj in E. subst ts.
    assert (Hn24 : n <= 24) by lia.
    destruct (netmask_low_octet Hn24) as [L0 L1].
    assert (B0 : Z.land net_base 255 = 0%Z).
    { unfold net_base. now rewrite <- Z.land_assoc, L0, Z.land_0_r. }
    assert (B1 : Z.land bcast 255 = 255%Z).
    { unfold bcast. now rewrite Z.land_lor_distr_l, B0, L1. }
    assert (Hnot : forall x, (0 <= x < 2 ^ 32)%Z ->
                (Z.land x 255 = 0 \/ Z.land x 255 = 255)%Z ->
                ~ In (dotted x) (map (fun i => quad a b c i) (seq 1 254))).
    { intros x Rx Hx Hin. apply in_map_iff in Hin.
      destruct Hin as (i & Ei & Hi). apply in_seq in Hi.
      assert (F : _ip2int (quad a b c i) = _ip2int (dotted x))
        by now rewrite Ei.
      unfold _ip2int in F at 1.
      rewrite inet_aton_quad, ip2int_dotted in F by (assumption || lia).
      apply Some_inj in F.
      assert (G : Z.land (quad_value a b c i) 255 = Z.of_nat i)
        by (apply quad_value_low_octet; lia).
      rewrite F in G. lia. }
    split; [|split; [|split]].
    + rewrite length_map, length_seq. lia.
    + apply NoDup_map_in; [|apply seq_NoDup].
      intros x y _ _. apply quad_last_inj.
    + apply Hnot; [exact Rb|now left].
    + apply Hnot; [exact Rc|now right].
Qed.

(** ** What the active phase sweeps *)

(** C1. The script defines the choice of an interface and the enumeration
    of its subnet ([get_scan_targets_from_interface], lines 147-206) and a
    [ping_sweep] that takes a list of targets, and [main] uses neither: on a
    machine whose interface is 192.168.1.50 in a /25 the enumeration gives
    the 126 hosts 192.168.1.1 to 192.168.1.126, and the run sweeps
    192.168.1.1 to 192.168.1.254. *)
Lemma sweep_ignores_netmask :
  passive_matches world_half = []
  /\ get_scan_targets_from_interface (netifaces world_half)
     = Some (map (fun i => py "192.168.1." ++ str_of_nat i) (seq 1 126))
  /\ sweeps (fst (main world_half))
     = [map (fun i => py "192.168.1." ++ str_of_nat i) (seq 1 254)]
  /\ sweeps (fst (main world_half)) <> [claimed_targets world_half].
Proof.
  split; [vm_compute; reflexivity|].
  split; [vm_compute; reflexivity|].
  split; [vm_compute; reflexivity|].
  intros H.
  apply (f_equal (map (@List.length str))) in H.
  vm_compute in H. discriminate.
Qed.

(** What a run sweeps as the script stands: when the first reading gives
    no match, one list, the 254 hosts [p.1] to [p.254], where [p] is the
    first three numbers of the address found in the output of [ipconfig]
    after [IPv4 Address], or [192.168.1] when [ipconfig] fails or shows no
    such address; what [netifaces] reports plays no part. *)
Theorem active_sweep_targets (w : World) :
  passive_matches w = [] ->
  (forall ip,
      get_local_ipv4 (ipconfig w) = Some ip ->
      exists a b c d,
        ip = a ++ py "." ++ b ++ py "." ++ c ++ py "." ++ d
        /\ digits a /\ digits b /\ digits c /\ digits d
        /\ sweeps (fst (main w)) = [host_block (a ++ py "." ++ b ++ py "." ++ c)])
  /\ (get_local_ipv4 (ipconfig w) = None ->
      sweeps (fst (main w)) = [host_block (py "192.168.1")])
  /\ (forall nif,
        main {| arp_before := arp_before w; ipconfig := ipconfig w;
                arp_after := arp_after w; netifaces := nif |}
        = main w).
Proof.
  intros E. rewrite (sweeps_main_active w E).
  destruct (ping_sweep_main w) as (pref & P & Hp). rewrite P.
  split; [|split].
  - intros ip Hip. rewrite Hip in Hp.
    destruct Hp as (a & b & c & d & -> & Ha & Hb & Hc & Hd & ->).
    now exists a, b, c, d.
  - intros Hnone. rewrite Hnone in Hp. now subst pref.
  - intros nif. reflexivity.
Qed.

Lemma active_sweep_targets_witness :
  passive_matches world_half = []
  /\ sweeps (fst (main world_half)) = [host_block (py "192.168.1")].
Proof.
  assert (E : passive_matches world_half = []) by (vm_compute; reflexivity).
  split; [exact E|].
  destruct (proj1 (active_sweep_targets world_half E) (py "192.168.1.50"))
    as (a & b & c & d & Hip & Ha & Hb & Hc & Hd & S);
    [vm_compute; reflexivity|].
  rewrite S. f_equal. f_equal.
  pose proof (split_dotted_quad (proj2 Ha) (proj2 Hb) (proj2 Hc) (proj2 Hd)) as Sp.
  rewrite <- Hip in Sp. vm_compute in Sp.
  injection Sp as <- <- <- <-. reflexivity.
Defined.

Lemma passive_match_ends_run_witness :
  passive_matches world_cached <> []
  /\ fst (main world_cached)
     = [EArp; EPrint (py "1. RaspberryPi 192.168.1.10 28:cd:c1:aa:bb:cc")].
Proof.
  assert (E : passive_matches world_cached
              = [(py "RaspberryPi", py "192.168.1.10", py "28:cd:c1:aa:bb:cc")])
    by (vm_compute; reflexivity).
  assert (N : passive_matches world_cached <> [])
    by (rewrite E; discriminate).
  split; [exact N|].
  rewrite (proj1 (proj1 (passive_match_ends_run world_cached) N)), E.
  vm_compute. reflexivity.
Defined.

(** C6. Every list that a run sweeps has 254 addresses, all different, made
    of one prefix and the numbers 1 to 254: the addresses that end in 0 and
    in 255, the network's and the broadcast, are not in it.  The same holds
    of the targets [get_scan_targets_from_interface] computes from an address
    and a netmask of any prefix length. *)
Theorem sweep_targets_bounded (w : World) (ips : list str)
        (a b c d n : nat) (ts : list str) :
  (In ips (sweeps (fst (main w))) ->
     List.length ips <= 254 /\ NoDup ips
     /\ exists pref,
         ips = host_block pref
         /\ ~ In (pref ++ py ".0") ips /\ ~ In (pref ++ py ".255") ips)
  /\ (a <= 255 -> b <= 255 -> c <= 255 -> d <= 255 -> n <= 32 ->
      scan_targets (quad a b c d) (dotted (netmask_of_prefix n)) = Some ts ->
      let net_base := Z.land (quad_value a b c d) (netmask_of_prefix n) in
      let bcast :=
        Z.lor net_base (Z.land (Z.lnot (netmask_of_prefix n)) 0xFFFFFFFF) in
      List.length ts <= 254 /\ NoDup ts
      /\ ~ In (dotted net_base) ts /\ ~ In (dotted bcast) ts).
Proof.
  split; [|apply scan_targets_bounded].
  intros Hin.
  assert (Hex : exists pref, ips = host_block pref).
  { destruct (passive_matches w) as [|m ms] eqn:E.
    - rewrite (sweeps_main_active w E) in Hin.
      destruct (ping_sweep_main w) as (pref & P & _). rewrite P in Hin.
      destruct Hin as [<-|[]]. now exists pref.
    - rewrite sweeps_main_passive in Hin by (rewrite E; discriminate).
      destruct Hin. }
  destruct Hex as (pref & ->).
  split; [rewrite host_block_length; lia|].
  split; [apply host_block_NoDup|].
  exists pref. split; [reflexivity|]. split.
  - change (py ".0") with (py "." ++ str_of_nat 0).
    apply host_block_not_In. now left.
  - change (py ".255") with (py "." ++ str_of_nat 255).
    apply host_block_not_In. right. lia.
Qed.

Lemma sweep_targets_bounded_witness :
  In (host_block (py "192.168.1")) (sweeps (fst (main world_half)))
  /\ List.length (host_block (py "192.168.1")) <= 254
  /\ NoDup (host_block (py "192.168.1")).
Proof.
  assert (Hin : In (host_block (py "192.168.1")) (sweeps (fst (main world_half))))
    by (vm_compute; left; reflexivity).
  split; [exact Hin|].
  destruct (proj1 (sweep_targets_bounded world_half (host_block (py "192.168.1"))
                     0 0 0 0 0 []) Hin) as (L & N & _).
  split; assumption.
Defined.

(** ** The worker pool *)

Import Sweep.

Lemma set_nth_split {A : Type} (l : list A) :
  forall i x,
    nth_error l i = Some x ->
    exists l1 l2, l = l1 ++ x :: l2 /\ forall y, set_nth i y l = l1 ++ y :: l2.
Proof.
  induction l as [|a l IH]; intros [|i] x H; simpl in H; try discriminate.
  - injection H as ->. now exists [], l.
  - destruct (IH i x H) as (l1 & l2 & -> & Hs).
    exists (a :: l1), l2. split; [reflexivity|].
    intros y. simpl. now rewrite Hs.
Qed.

Lemma list_sum_mid (f : worker -> nat) (l1 l2 : list worker) (w : worker) :
  list_sum (map f (l1 ++ w :: l2))
  = f w + list_sum (map f l1) + list_sum (map f l2).
Proof. rewrite map_app, list_sum_app. simpl. lia. Qed.

Lemma held_mid (l1 l2 : list worker) (w : worker) :
  flat_map held (l1 ++ w :: l2)
  = flat_map held l1 ++ held w ++ flat_map held l2.
Proof. now rewrite flat_map_app. Qed.

Lemma sweep_inv_init (ips : list str) : sweep_inv ips (init ips).
Proof.
  constructor; simpl; auto; try lia; try discriminate; try tauto.
Qed.

Lemma exited_mid (l1 l2 : list worker) (w w' : worker) :
  w' <> Exited -> In Exited (l1 ++ w' :: l2) -> In Exited (l1 ++ w :: l2).
Proof.
  intros Hw Hin. apply in_app_or in Hin. apply in_or_app.
  destruct Hin as [H|[H|H]]; [now left|contradiction|right; now right].
Qed.

Ltac inv_fields :=
  constructor; cbn [queue unfinished workers returned dequeued probed];
  repeat match goal with
    | E : forall y, set_nth _ y _ = _ |- _ => rewrite !E
    end;
  rewrite ?length_app, ?list_sum_mid, ?held_mid in *;
  cbn [in_flight held List.length app] in *; auto; try lia.

Lemma sweep_inv_work (ips : list str) (i : nat) (s s' : state) :
  sweep_inv ips s -> work i s = Some s' -> sweep_inv ips s'.
Proof.
  intros [Hf Hc Hp Hl He Hr] H. unfold work in H.
  destruct (nth_error (workers s) i) as [w|] eqn:N; [|discriminate].
  destruct (set_nth_split _ _ N) as (l1 & l2 & Ew & Hs).
  rewrite Ew in *. clear N.
  destruct w as [|t| |]; [destruct (queue s) as [|t q] eqn:Q|..];
    try discriminate; injection H as <-.
  - (* the queue is empty: the worker leaves *)
    inv_fields.
  - (* the worker takes [t] *)
    inv_fields.
    + now rewrite <- app_assoc.
    + apply Permutation_trans
        with ((probed s ++ flat_map held l1 ++ flat_map held l2) ++ [t]).
      * now apply Permutation_app_tail.
      * rewrite <- !app_assoc. do 2 apply Permutation_app_head.
        apply Permutation_sym, Permutation_cons_append.
    + intros Hin. apply (@exited_mid l1 l2 Idle (Busy t)) in Hin; [|discriminate].
      specialize (He Hin). discriminate.
  - (* the ping of [t] is over *)
    inv_fields.
    + rewrite <- app_assoc. apply (Permutation_trans Hp).
      apply Permutation_app_head. apply Permutation_sym.
      apply (Permutation_middle (flat_map held l1) (flat_map held l2) t).
    + intros Hin. apply He. revert Hin. apply exited_mid. discriminate.
  - (* the task is acknowledged *)
    inv_fields.
    + intros Hin. apply He. revert Hin. apply exited_mid. discriminate.
    + intros R. specialize (Hr R). lia.
Qed.

Lemma sweep_inv_step (ips : list str) (a : action) (s s' : state) :
  sweep_inv ips s -> step ips a s = Some s' -> sweep_inv ips s'.
Proof.
  intros I H. destruct a as [|i|]; simpl in H.
  - destruct (negb (returned s) && (List.length (workers s) <? max_workers ips))
      eqn:C; [|discriminate].
    apply andb_true_iff in C. destruct C as [_ C]. apply Nat.ltb_lt in C.
    destruct I as [Hf Hc Hp Hl He Hr]. injection H as <-.
    constructor; cbn [queue unfinished workers returned dequeued probed];
      auto; try discriminate.
    + rewrite map_app, list_sum_app. simpl. lia.
    + rewrite flat_map_app. simpl. now rewrite app_nil_r.
    + rewrite length_app. simpl. lia.
    + intros Hin. apply He. apply in_app_or in Hin.
      destruct Hin as [|[|[]]]; [assumption|discriminate].
  - exact (sweep_inv_work i I H).
  - destruct (negb (returned s) && (List.length (workers s) =? max_workers ips)
              && (unfinished s =? 0)) eqn:C; [|discriminate].
    apply andb_true_iff in C. destruct C as [C C3].
    apply andb_true_iff in C. destruct C as [_ C2].
    apply Nat.eqb_eq in C2. apply Nat.eqb_eq in C3.
    destruct I as [Hf Hc Hp Hl He Hr]. injection H as <-.
    constructor; cbn [queue unfinished workers returned dequeued probed]; auto.
Qed.

Lemma sweep_inv_run (ips : list str) (sched : list action) :
  forall s s', sweep_inv ips s -> run ips sched s = Some s' -> sweep_inv ips s'.
Proof.
  induction sched as [|a sched IH]; intros s s' I H; simpl in H.
  - now injection H as <-.
  - destruct (step ips a s) as [s1|] eqn:S; [|discriminate].
    apply (IH s1 s'); [|exact H]. eapply sweep_inv_step; eassumption.
Qed.

Lemma no_task_in_flight (ws : list worker) :
  list_sum (map in_flight ws) = 0 -> flat_map held ws = [].
Proof.
  induction ws as [|w ws IH]; simpl; [reflexivity|].
  destruct w; simpl; intros H; try discriminate; now apply IH.
Qed.

(** When [ping_sweep] returns, the queue is empty, every target was handed
    out once, in the order of the list, and pinged once. *)
Lemma sweep_inv_returned (ips : list str) (s : state) :
  sweep_inv ips s -> returned s = true ->
  List.length (workers s) = Nat.min 60 (List.length ips)
  /\ dequeued s = ips /\ Permutation (probed s) ips
  /\ queue s = [] /\ unfinished s = 0.
Proof.
  intros [Hf Hc Hp Hl He Hr] R. destruct (Hr R) as [U L].
  rewrite U in Hc.
  assert (Q : queue s = []) by (destruct (queue s); [reflexivity|simpl in Hc; lia]).
  assert (F : flat_map held (workers s) = [])
    by (apply no_task_in_flight; lia).
  rewrite Q, app_nil_r in Hf. rewrite F, app_nil_r, Hf in Hp.
  repeat split; auto. now apply Permutation_sym.
Qed.

Lemma set_nth_length {A : Type} (l : list A) :
  forall i x, List.length (set_nth i x l) = List.length l.
Proof.
  induction l as [|a l IH]; intros [|i] x; simpl; auto.
Qed.

Lemma fuel_work (ips : list str) (i : nat) (s s' : state) :
  work i s = Some s' -> fuel ips s' < fuel ips s.
Proof.
  unfold work, fuel. intros H.
  destruct (nth_error (workers s) i) as [w|] eqn:N; [|discriminate].
  destruct (set_nth_split _ _ N) as (l1 & l2 & Ew & Hs).
  destruct w as [|t| |]; [destruct (queue s) as [|t q] eqn:Q|..];
    try discriminate; injection H as <-;
    cbn [queue unfinished workers returned dequeued probed];
    rewrite set_nth_length, !Hs, Ew, !list_sum_mid;
    cbn [weight List.length]; lia.
Qed.

Lemma fuel_step (ips : list str) (a : action) (s s' : state) :
  step ips a s = Some s' -> fuel ips s' < fuel ips s.
Proof.
  destruct a as [|i|]; simpl; [| apply fuel_work |].
  - destruct (negb (returned s)) eqn:R; [|discriminate].
    destruct (Nat.ltb_spec (List.length (workers s)) (max_workers ips)) as [Lt|];
      [|discriminate].
    apply negb_true_iff in R. cbn [andb]. intros E. injection E as <-.
    unfold fuel. cbn [queue unfinished workers returned dequeued probed].
    rewrite R, length_app, map_app, list_sum_app. simpl. lia.
  - destruct (negb (returned s)) eqn:R; [|discriminate].
    destruct (List.length (workers s) =? max_workers ips); [|discriminate].
    destruct (unfinished s =? 0); [|discriminate].
    apply negb_true_iff in R. cbn [andb]. intros E. injection E as <-.
    unfold fuel. cbn [queue unfinished workers returned dequeued probed].
    rewrite R. lia.
Qed.

Lemma fuel_run (ips : list str) (sched : list action) :
  forall s s', run ips sched s = Some s' ->
               List.length sched + fuel ips s' <= fuel ips s.
Proof.
  induction sched as [|a sched IH]; intros s s' H; simpl in H.
  - injection H as <-. simpl. lia.
  - destruct (step ips a s) as [s1|] eqn:S; [|discriminate].
    apply IH in H. apply fuel_step in S. simpl. lia.
Qed.

Lemma some_worker_or_all_exited (ws : list worker) :
  (exists i w, nth_error ws i = Some w /\ w <> Exited)
  \/ Forall (fun w => w = Exited) ws.
Proof.
  induction ws as [|w ws [(i & w' & N & E)|IH]].
  - right. constructor.
  - left. now exists (S i), w'.
  - destruct w; try (left; exists 0; eexists; split;
                     [reflexivity|discriminate]).
    right. now constructor.
Qed.

Lemma work_enabled (i : nat) (s : state) (w : worker) :
  nth_error (workers s) i = Some w -> w <> Exited ->
  exists s', work i s = Some s'.
Proof.
  intros N E. unfold work. rewrite N.
  destruct w; [destruct (queue s)|..]; try contradiction; eauto.
Qed.

Lemma all_exited_in_flight (ws : list worker) :
  Forall (fun w => w = Exited) ws -> list_sum (map in_flight ws) = 0.
Proof. induction 1 as [|w ws -> _ IH]; simpl; auto. Qed.

(** Before [ping_sweep] returns some thread can always move. *)
Lemma sweep_progress (ips : list str) (s : state) :
  sweep_inv ips s -> returned s = false ->
  exists a s', step ips a s = Some s'.
Proof.
  intros [Hf Hc Hp Hl He Hr] R.
  destruct (Nat.ltb_spec (List.length (workers s)) (max_workers ips)) as [Lt|Ge].
  - exists Spawn. simpl. rewrite R. apply Nat.ltb_lt in Lt. rewrite Lt.
    simpl. eauto.
  - destruct (some_worker_or_all_exited (workers s)) as [(i & w & N & E)|All].
    + destruct (work_enabled i s N E) as (s' & W). now exists (Work i), s'.
    + exists Join. simpl. rewrite R.
      assert (L : List.length (workers s) = max_workers ips) by lia.
      apply Nat.eqb_eq in L. rewrite L.
      assert (U : unfinished s = 0).
      { rewrite Hc, (all_exited_in_flight All).
        destruct (workers s) as [|w ws] eqn:Ew.
        - unfold max_workers in Ge. cbn [List.length] in Ge.
          assert (E0 : List.length ips = 0) by lia.
          rewrite <- Hf, length_app in E0. lia.
        - inversion All; subst. rewrite He by now left. reflexivity. }
      rewrite U. simpl. eauto.
Qed.

(** From any state of a sweep some schedule leads to the return. *)
Lemma sweep_completes (ips : list str) (n : nat) :
  forall s, fuel ips s <= n -> sweep_inv ips s ->
            exists sched s', run ips sched s = Some s' /\ returned s' = true.
Proof.
  induction n as [|n IH]; intros s Hn I.
  - destruct (returned s) eqn:R; [now exists [], s|].
    unfold fuel in Hn. rewrite R in Hn. simpl in Hn. lia.
  - destruct (returned s) eqn:R; [now exists [], s|].
    destruct (sweep_progress I R) as (a & s1 & S).
    pose proof (@fuel_step ips a s s1 S) as F.
    destruct (IH s1) as (sched & s' & Hrun & Hret);
      [lia|eapply sweep_inv_step; eassumption|].
    exists (a :: sched), s'. simpl. rewrite S. auto.
Qed.

(** C8. The queue holds all the targets before the first worker exists; the
    pool never has more than [min(60, len(ips))] workers and has exactly that
    many when [ping_sweep] returns; it returns only with the queue empty, no
    task unacknowledged, every target handed out exactly once, in the order
    of the list, and pinged exactly once.  Whatever the order in which the
    threads move, before the return some thread can move, the number of moves
    is bounded, and the return can be reached. *)
Theorem sweep_drains_queue (ips : list str) (sched : list action) (s : state) :
  ips <> [] ->
  run ips sched (init ips) = Some s ->
  (queue (init ips) = ips /\ workers (init ips) = []
   /\ unfinished (init ips) = List.length ips)
  /\ List.length (workers s) <= Nat.min 60 (List.length ips)
  /\ dequeued s ++ queue s = ips
  /\ (returned s = true ->
      List.length (workers s) = Nat.min 60 (List.length ips)
      /\ dequeued s = ips /\ Permutation (probed s) ips
      /\ queue s = [] /\ unfinished s = 0)
  /\ (returned s = false -> exists a s', step ips a s = Some s')
  /\ List.length sched <= fuel ips (init ips)
  /\ (exists sched' s', run ips sched' s = Some s' /\ returned s' = true).
Proof.
  intros _ H.
  pose proof (sweep_inv_run sched (sweep_inv_init ips) H) as I.
  split; [repeat split|].
  split; [apply (inv_pool I)|].
  split; [apply (inv_fifo I)|].
  split; [now apply sweep_inv_returned|].
  split; [now apply sweep_progress|].
  split; [pose proof (@fuel_run ips sched _ _ H); lia|].
  now apply (@sweep_completes ips (fuel ips s)).
Qed.

Lemma sweep_drains_queue_witness :
  three_ips <> []
  /\ (exists s, run three_ips three_schedule (init three_ips) = Some s
                /\ returned s = true
                /\ dequeued s = three_ips
                /\ Permutation (probed s) three_ips).
Proof.
  assert (N : three_ips <> []) by discriminate.
  split; [exact N|].
  destruct (run three_ips three_schedule (init three_ips)) as [s|] eqn:R;
    [|vm_compute in R; discriminate].
  exists s.
  assert (Ret : returned s = true).
  { vm_compute in R. apply Some_inj in R. now subst s. }
  destruct (@sweep_drains_queue three_ips three_schedule s N R) as (_ & _ & _ & D & _).
  destruct (D Ret) as (_ & Hd & Hp & _).
  repeat split; auto.
Defined.

(** * Further properties of the code *)

(** ** Normalising and matching (lines 54-63) *)

Lemma is_hex_lower (c : ascii) : is_hex (lower_char c) = is_hex c.
Proof. each_char c. Qed.

Lemma lower_char_idem (c : ascii) : lower_char (lower_char c) = lower_char c.
Proof. each_char c. Qed.

Lemma lower_hex_fixed (c : ascii) :
  is_lower_hex c = true -> is_hex c = true /\ lower_char c = c.
Proof. each_char c. Qed.

Lemma norm_lower (s : str) : _norm (lower s) = _norm s.
Proof.
  unfold _norm, lower. induction s as [|c s IH]; simpl; [reflexivity|].
  rewrite is_hex_lower. destruct (is_hex c); simpl; [|exact IH].
  now rewrite lower_char_idem, IH.
Qed.

(** X1. The test of line 61 does not depend on the case of the letters, in
    the MAC or in the prefix. *)
Theorem matches_case_insensitive (m m' p p' : str) :
  lower m = lower m' -> lower p = lower p' ->
  prefix_matches m p = prefix_matches m' p'.
Proof.
  intros Hm Hp. unfold prefix_matches.
  rewrite <- (norm_lower m), <- (norm_lower m'), <- (norm_lower p),
          <- (norm_lower p').
  now rewrite Hm, Hp.
Qed.

Lemma matches_case_insensitive_witness :
  prefix_matches (py "28-CD-C1-AA-BB-CC") (py "28:Cd:c1")
  = prefix_matches (py "28-cd-c1-aa-bb-cc") (py "28:cd:C1").
Proof.
  apply matches_case_insensitive; vm_compute; reflexivity.
Defined.

Lemma norm_fixed (s : str) :
  Forall (fun c => is_lower_hex c = true) s -> _norm s = s.
Proof.
  unfold _norm, lower. induction 1 as [|c s Hc _ IH]; simpl; [reflexivity|].
  destruct (lower_hex_fixed c Hc) as [H1 H2]. rewrite H1. simpl.
  now rewrite H2, IH.
Qed.

(** X2. [_norm] changes nothing in a string it has produced, and the
    normal form of two strings put end to end is that of the first followed
    by that of the second. *)
Theorem norm_idempotent_and_app (a b : str) :
  _norm (_norm a) = _norm a /\ _norm (a ++ b) = _norm a ++ _norm b.
Proof.
  split.
  - apply norm_fixed, norm_lower_hex.
  - unfold _norm, lower. now rewrite filter_app, map_app.
Qed.

(** X3. A rule whose prefix has no hexadecimal digit matches every MAC:
    with such a rule in the table no entry is left without a device. *)
Theorem classify_blank_prefix (mac : str) (before after : rules)
        (pref device : str) :
  filter is_hex pref = [] ->
  prefix_matches mac pref = true
  /\ classify mac (before ++ (pref, device) :: after) <> None.
Proof.
  intros H.
  assert (M : prefix_matches mac pref = true).
  { unfold prefix_matches, _norm. rewrite H. reflexivity. }
  split; [exact M|].
  induction before as [|[p d] before IH]; simpl.
  - rewrite M. discriminate.
  - destruct (prefix_matches mac p); [discriminate|exact IH].
Qed.

Lemma classify_blank_prefix_witness :
  classify (py "00:11:22:33:44:55")
           ([(py "28:cd:c1", py "RaspberryPi")] ++ (py "::", py "Any") :: [])
  <> None.
Proof.
  apply (@classify_blank_prefix (py "00:11:22:33:44:55")
           [(py "28:cd:c1", py "RaspberryPi")] [] (py "::") (py "Any")).
  vm_compute. reflexivity.
Defined.

(** X4. The matches are the entries that some rule matches, in the order
    of the cache and each with the device of its first matching rule. *)
Theorem match_entries_filter (rs : rules) (es : list entry) :
  map entry_of (match_entries rs es) = filter (classified rs) es
  /\ List.length (match_entries rs es) <= List.length es
  /\ Forall (fun m => classify (snd (entry_of m)) rs = Some (fst (fst m)))
            (match_entries rs es).
Proof.
  induction es as [|[ip mac] es (IH1 & IH2 & IH3)]; simpl.
  - repeat split; auto.
  - unfold classified at 1. cbn [snd].
    destruct (classify mac rs) as [d|] eqn:C; simpl.
    + rewrite IH1. repeat split; [lia|]. constructor; [exact C|exact IH3].
    + repeat split; auto.
Qed.

(** ** The worker pool (lines 96-129) *)

Lemma in_flight_le_length (ws : list worker) :
  list_sum (map in_flight ws) <= List.length ws.
Proof.
  induction ws as [|w ws IH]; simpl; [lia|]. destruct w; simpl; lia.
Qed.

(** X5. At no moment of a sweep are more than 60 pings in progress (nor
    more than there are targets). *)
Theorem sweep_bounded_concurrency (ips : list str) (sched : list action)
        (s : state) :
  run ips sched (init ips) = Some s ->
  list_sum (map in_flight (workers s)) <= Nat.min 60 (List.length ips)
  /\ List.length (workers s) <= 60.
Proof.
  intros H.
  pose proof (sweep_inv_run sched (sweep_inv_init ips) H) as I.
  pose proof (inv_pool I) as P. unfold max_workers in P.
  pose proof (in_flight_le_length (workers s)). lia.
Qed.

Lemma sweep_bounded_concurrency_witness :
  exists s, run three_ips [Spawn; Work 0; Spawn; Work 1] (init three_ips) = Some s
            /\ list_sum (map in_flight (workers s)) <= 3.
Proof.
  destruct (run three_ips [Spawn; Work 0; Spawn; Work 1] (init three_ips))
    as [s|] eqn:R; [|vm_compute in R; discriminate].
  exists s. split; [reflexivity|].
  apply (@sweep_bounded_concurrency three_ips _ s R).
Defined.

Lemma idle_or_exited (ws : list worker) (i : nat) (w : worker) :
  list_sum (map in_flight ws) = 0 -> nth_error ws i = Some w ->
  w = Idle \/ w = Exited.
Proof.
  revert i. induction ws as [|x ws IH]; intros [|i] H N; simpl in *;
    try discriminate.
  - injection N as ->. destruct w; simpl in H; auto; discriminate.
  - apply (IH i); [|exact N]. destruct x; simpl in H; auto; discriminate.
Qed.

Lemma nth_error_set_nth {A : Type} (l : list A) :
  forall i x y, nth_error l i = Some y -> nth_error (set_nth i x l) i = Some x.
Proof.
  induction l as [|a l IH]; intros [|i] x y H; simpl in *; try discriminate.
  - reflexivity.
  - eapply IH. exact H.
Qed.

(** X6. Once [ping_sweep] has returned nothing is taken from the queue or
    pinged any more: the only thing left to happen is that workers find the
    queue empty and end. *)
Theorem sweep_quiet_after_return (ips : list str) (sched : list action)
        (s s' : state) (a : action) :
  run ips sched (init ips) = Some s -> returned s = true ->
  step ips a s = Some s' ->
  probed s' = probed s /\ dequeued s' = dequeued s /\ queue s' = []
  /\ returned s' = true
  /\ exists i, a = Work i /\ nth_error (workers s') i = Some Exited.
Proof.
  intros H R S.
  pose proof (sweep_inv_run sched (sweep_inv_init ips) H) as I.
  destruct (sweep_inv_returned I R) as (_ & _ & _ & Q & U).
  pose proof (inv_count I) as C. rewrite U, Q in C. simpl in C.
  destruct a as [|i|]; simpl in S.
  - rewrite R in S. discriminate.
  - unfold work in S.
    destruct (nth_error (workers s) i) as [w|] eqn:N; [|discriminate].
    destruct (idle_or_exited (workers s) i (eq_sym C) N) as [-> | ->];
      [|discriminate].
    rewrite Q in S. injection S as <-.
    cbn [queue unfinished workers returned dequeued probed].
    repeat split; auto. exists i. split; [reflexivity|].
    eapply nth_error_set_nth. exact N.
  - rewrite R in S. discriminate.
Qed.

Lemma sweep_quiet_after_return_witness :
  exists s s',
    run three_ips three_schedule (init three_ips) = Some s
    /\ step three_ips (Work 0) s = Some s'
    /\ probed s' = probed s.
Proof.
  destruct (run three_ips three_schedule (init three_ips)) as [s|] eqn:R;
    [|vm_compute in R; discriminate].
  assert (Ret : returned s = true).
  { vm_compute in R. apply Some_inj in R. now subst s. }
  destruct (step three_ips (Work 0) s) as [s'|] eqn:S.
  - exists s, s'. split; [reflexivity|]. split; [exact S|].
    apply (@sweep_quiet_after_return three_ips three_schedule s s' (Work 0) R Ret S).
  - exfalso. vm_compute in R. apply Some_inj in R. subst s.
    vm_compute in S. discriminate.
Defined.

(** X7. With an empty list no worker is started: the first and only thing
    that can happen is the return, and nothing is pinged. *)
Theorem sweep_empty_list (a : action) (s' : state) :
  step [] a (init []) = Some s' ->
  a = Join /\ returned s' = true /\ workers s' = [] /\ probed s' = [].
Proof.
  destruct a as [|i|]; simpl.
  - discriminate.
  - unfold work. simpl. destruct i; discriminate.
  - intros H. injection H as <-. auto.
Qed.

Lemma sweep_empty_list_witness :
  exists s', step [] Join (init []) = Some s' /\ returned s' = true.
Proof.
  destruct (step [] Join (init [])) as [s'|] eqn:S; [|discriminate].
  exists s'. split; [reflexivity|].
  apply (@sweep_empty_list Join s' S).
Defined.

(** ** Addresses (lines 131-135) *)

(** X8. [_int2ip] is defined on the 32-bit values and on no other, and
    [_ip2int] reads back what it prints. *)
Theorem int2ip_round_trip (i : Z) :
  ((0 <= i <= 0xFFFFFFFF)%Z ->
   exists s, _int2ip i = Some s /\ _ip2int s = Some i
             /\ List.length (split "." s) = 4)
  /\ ((i < 0 \/ 0xFFFFFFFF < i)%Z -> _int2ip i = None).
Proof.
  split.
  - intros Hi. assert (R : (0 <= i < 2 ^ 32)%Z) by lia.
    exists (dotted i). split; [now apply int2ip_dotted|].
    split; [now apply ip2int_dotted|].
    rewrite dotted_quad_value. unfold quad.
    now rewrite split_dotted_quad by apply str_of_nat_digits.
  - intros Hi. unfold _int2ip.
    destruct (Z.leb_spec 0 i); [|reflexivity].
    destruct (Z.leb_spec i 4294967295); [lia|reflexivity].
Qed.

Lemma int2ip_round_trip_witness :
  exists s, _int2ip 3232235826 = Some s /\ _ip2int s = Some 3232235826%Z
            /\ List.length (split "." s) = 4.
Proof.
  apply (proj1 (int2ip_round_trip 3232235826)). lia.
Defined.

(** ** The argument of the sweep (lines 84-94) *)

Lemma split_parts_4 (a b c d : str) :
  all_in not_dot a -> all_in not_dot b -> all_in not_dot c -> all_in not_dot d ->
  split "." (a ++ py "." ++ b ++ py "." ++ c ++ py "." ++ d) = [a; b; c; d].
Proof. intros. now rewrite !split_dot, split_no_dot. Qed.

Lemma split_parts_3 (a b c : str) :
  all_in not_dot a -> all_in not_dot b -> all_in not_dot c ->
  split "." (a ++ py "." ++ b ++ py "." ++ c) = [a; b; c].
Proof. intros. now rewrite !split_dot, split_no_dot. Qed.

(** X9. An address [a.b.c.d] and the prefix [a.b.c] make [ping_sweep]
    sweep the same 254 addresses [a.b.c.1] to [a.b.c.254], whatever [d] is
    and whether or not the parts are numbers. *)
Theorem ping_sweep_address_or_prefix (a b c d : str) :
  all_in not_dot a -> all_in not_dot b -> all_in not_dot c -> all_in not_dot d ->
  ping_sweep (ArgStr (a ++ py "." ++ b ++ py "." ++ c ++ py "." ++ d))
  = Some (host_block (a ++ py "." ++ b ++ py "." ++ c))
  /\ ping_sweep (ArgStr (a ++ py "." ++ b ++ py "." ++ c))
     = Some (host_block (a ++ py "." ++ b ++ py "." ++ c)).
Proof.
  intros Ha Hb Hc Hd. unfold ping_sweep, sweep_ips.
  rewrite split_parts_4, split_parts_3 by assumption. split; reflexivity.
Qed.

Lemma ping_sweep_address_or_prefix_witness :
  ping_sweep (ArgStr (py "10" ++ py "." ++ py "0" ++ py "." ++ py "5" ++ py "." ++ py "77"))
  = Some (host_block (py "10" ++ py "." ++ py "0" ++ py "." ++ py "5")).
Proof.
  apply (@ping_sweep_address_or_prefix (py "10") (py "0") (py "5") (py "77"));
    unfold all_in; repeat constructor.
Defined.

(** ** The run (lines 38-229) *)

(** X10. When the first reading of the cache matches nothing, the run is:
    [arp -a], [ipconfig], one sweep of a block of 254 hosts, [arp -a] again,
    the report; and the report is made from the second reading alone. *)
Theorem active_run_trace (w : World) :
  passive_matches w = [] ->
  exists pref,
    fst (main w)
    = [EArp; EIpconfig; ESweep (host_block pref); EArp]
        ++ map EPrint (report (snd (main w)))
    /\ snd (main w)
       = match_entries mac_device_map
           (get_arp_entries (arp_after w (Some (host_block pref)))).
Proof.
  intros E. destruct (ping_sweep_main w) as (pref & P & _).
  exists pref. unfold main, active_matches. rewrite E, P. split; reflexivity.
Qed.

Lemma active_run_trace_witness :
  exists pref,
    fst (main world_half)
    = [EArp; EIpconfig; ESweep (host_block pref); EArp]
        ++ map EPrint (report (snd (main world_half))).
Proof.
  destruct (@active_run_trace world_half) as (pref & T & _);
    [vm_compute; reflexivity|].
  exists pref. exact T.
Defined.

Lemma report_lines_nth (ms : list found) :
  forall i k device ip mac,
    nth_error ms k = Some (device, ip, mac) ->
    nth_error (report_lines i ms) k
    = Some (str_of_nat (i + k) ++ py ". " ++ device ++ py " " ++ ip
              ++ py " " ++ mac).
Proof.
  induction ms as [|[[d0 i0] m0] ms IH]; intros i [|k] device ip mac H;
    simpl in H; try discriminate.
  - injection H as -> -> ->. simpl. now rewrite Nat.add_0_r.
  - simpl. rewrite (IH (S i) k device ip mac H).
    now rewrite Nat.add_succ_comm.
Qed.

Lemma report_lines_length (ms : list found) :
  forall i, List.length (report_lines i ms) = List.length ms.
Proof.
  induction ms as [|[[d0 i0] m0] ms IH]; intros i; simpl; auto.
Qed.

(** X11. The report has one line for each match, in the order of the
    matches and numbered from 1, and the single no-match line when there is
    none: it is never empty. *)
Theorem report_numbered (ms : list found) :
  List.length (report ms) = Nat.max 1 (List.length ms)
  /\ (ms = [] -> report ms = [no_match_message])
  /\ (forall k device ip mac,
        nth_error ms k = Some (device, ip, mac) ->
        nth_error (report ms) k
        = Some (str_of_nat (k + 1) ++ py ". " ++ device ++ py " " ++ ip
                  ++ py " " ++ mac)).
Proof.
  split; [|split].
  - destruct ms as [|m ms]; [reflexivity|].
    unfold report. rewrite report_lines_length. simpl. lia.
  - now intros ->.
  - intros k device ip mac H. destruct ms as [|m ms].
    + destruct k; discriminate.
    + unfold report. rewrite (report_lines_nth _ 1 _ H).
      now rewrite Nat.add_comm.
Qed.

(** ** The local address (lines 70-79) *)

Lemma ipv4_pattern_intro (ws ip : str) :
  all_in is_dot_or_blank ws -> dotted_quad ip ->
  denotes ipv4_pattern (py "IPv4 Address" ++ ws ++ py ": " ++ ip) [] [ip].
Proof.
  intros Hws (a & b & c & d & -> & Ha & Hb & Hc & Hd). unfold ipv4_pattern.
  apply D_Seq with (gs' := []); [apply D_Lit|].
  apply D_Seq with (gs' := []).
  { constructor; [exact Hws|lia|exact I]. }
  apply D_Seq with (gs' := []); [apply D_Lit|].
  apply (D_Group (gs := []) (gs' := [])).
  apply D_Seq with (gs' := []); [now apply denotes_plus|].
  apply D_Seq with (gs' := []); [apply D_Lit|].
  apply D_Seq with (gs' := []); [now apply denotes_plus|].
  apply D_Seq with (gs' := []); [apply D_Lit|].
  apply D_Seq with (gs' := []); [now apply denotes_plus|].
  apply D_Seq with (gs' := []); [apply D_Lit|].
  now apply denotes_plus.
Qed.

(** X12. [get_local_ipv4] gives an address exactly when [ipconfig] ran and
    its output shows one after the words [IPv4 Address]; the address it gives
    is shown there and has four parts.  A failed command gives none. *)
Theorem get_local_ipv4_spec (out : str) :
  get_local_ipv4 Failed = None
  /\ ((exists ip, get_local_ipv4 (Ok out) = Some ip)
      <-> exists ip, shows_ipv4 out ip)
  /\ (forall ip, get_local_ipv4 (Ok out) = Some ip ->
                 shows_ipv4 out ip /\ List.length (split "." ip) = 4).
Proof.
  assert (Sound : forall ip, get_local_ipv4 (Ok out) = Some ip ->
                             shows_ipv4 out ip).
  { intros ip H. destruct (get_local_ipv4_some _ H)
      as (Hq & out' & pre & ws & post & E & -> & Hws).
    injection E as ->. now exists pre, ws, post. }
  split; [reflexivity|]. split; [split|].
  - intros [ip H]. exists ip. now apply Sound.
  - intros (ip & pre & ws & post & -> & Hws & Hq).
    pose proof (ipv4_pattern_intro Hws Hq) as D.
    pose proof (search_complete pre post D) as S.
    rewrite <- !app_assoc in S. unfold get_local_ipv4.
    destruct (search ipv4_pattern _) as [g|] eqn:E; [|contradiction].
    apply search_sound in E. destruct E as (? & ? & ? & _ & D').
    apply ipv4_pattern_inv in D'. destruct D' as (? & ip' & _ & _ & -> & _).
    now exists ip'.
  - intros ip H. split; [now apply Sound|].
    destruct (get_local_ipv4_some _ H) as ((a & b & c & d & -> & Ha & Hb & Hc & Hd) & _).
    now rewrite split_dotted_quad by (apply Ha || apply Hb || apply Hc || apply Hd).
Qed.

(** ** Names of interfaces (lines 140-145) *)

Lemma contains_spec (s needle : str) :
  contains s needle = true <-> exists pre post, s = pre ++ needle ++ post.
Proof.
  induction s as [|c s IH]; simpl.
  - rewrite orb_false_r, startswith_app. split.
    + intros [rest H]. now exists [], rest.
    + intros (pre & post & H). destruct pre; [now exists post|discriminate].
  - rewrite orb_true_iff, startswith_app, IH. split.
    + intros [[rest H]|(pre & post & H)].
      * now exists [], rest.
      * exists (c :: pre), post. now rewrite H.
    + intros (pre & post & H). destruct pre as [|x pre].
      * left. now exists post.
      * right. injection H as _ H. now exists pre, post.
Qed.

Lemma lower_idem (s : str) : lower (lower s) = lower s.
Proof.
  unfold lower. rewrite map_map. apply map_ext. apply lower_char_idem.
Qed.

Lemma vpn_keyword_nonempty (kw : str) : In kw vpn_keywords -> kw <> [].
Proof.
  unfold vpn_keywords. simpl. intros H.
  repeat (destruct H as [<-|H]; [discriminate|]). destruct H.
Qed.

(** X13. A name is taken for a VPN's exactly when, put in lower case, it
    has one of the eight keywords somewhere inside; the case of the name does
    not matter and the empty name is not one. *)
Theorem is_vpn_iface_spec (name : str) :
  (_is_vpn_iface name = true
   <-> exists kw pre post,
         In kw vpn_keywords /\ lower name = pre ++ kw ++ post)
  /\ _is_vpn_iface (lower name) = _is_vpn_iface name
  /\ _is_vpn_iface [] = false.
Proof.
  assert (Spec : forall n : str,
             _is_vpn_iface n = true
             <-> exists kw pre post,
                   In kw vpn_keywords /\ lower n = pre ++ kw ++ post).
  { intros n. destruct n as [|c n].
    - split; [discriminate|]. intros (kw & pre & post & Hk & H).
      apply vpn_keyword_nonempty in Hk. simpl in H.
      destruct pre; [destruct kw; [contradiction|discriminate]|discriminate].
    - unfold _is_vpn_iface. rewrite existsb_exists. split.
      + intros (kw & Hk & C). apply contains_spec in C.
        destruct C as (pre & post & C). now exists kw, pre, post.
      + intros (kw & pre & post & Hk & C). exists kw. split; [exact Hk|].
        apply contains_spec. now exists pre, post. }
  split; [apply Spec|]. split; [|reflexivity].
  destruct (_is_vpn_iface name) eqn:E.
  - apply Spec. rewrite lower_idem. now apply Spec.
  - destruct (_is_vpn_iface (lower name)) eqn:F; [|reflexivity].
    apply Spec in F. rewrite lower_idem in F. apply Spec in F. congruence.
Qed.

(** ** Choosing the interface (lines 147-184) *)

Lemma first_usable_app (nif : NetIfaces) (before rest : list str) :
  Forall (passed_over nif) before ->
  first_usable nif (before ++ rest) = first_usable nif rest.
Proof.
  induction 1 as [|ifc l [V|(bs & B & N)] _ IH]; simpl; [reflexivity| |].
  - now rewrite V.
  - destruct (_is_vpn_iface ifc); [exact IH|]. rewrite B.
    destruct bs as [|a bs]; [exact IH|]. simpl in N.
    destruct (addr a) as [[|c ip]|]; try exact IH. rewrite N. exact IH.
Qed.

Lemma first_usable_passed (nif : NetIfaces) (l : list str) :
  Forall (passed_over nif) l -> first_usable nif l = Some None.
Proof.
  intros H. rewrite <- (app_nil_r l). now rewrite first_usable_app.
Qed.

Lemma first_usable_found (nif : NetIfaces) (before after : list str) (ifc : str) :
  Forall (passed_over nif) before -> usable nif ifc ->
  first_usable nif (before ++ ifc :: after) = Some (Some ifc).
Proof.
  intros Hb (V & a & rest & c & ip & B & A & L).
  rewrite first_usable_app by exact Hb. cbn [first_usable].
  rewrite V, B, A, L. reflexivity.
Qed.

(** X14. When the default gateway's interface has a name that is not a
    VPN's, the targets are those of that interface: the list of interfaces
    is not looked at. *)
Theorem default_interface_first (nif : NetIfaces) (gw name : str) :
  gateways nif = Some (gw, name) -> name <> [] -> _is_vpn_iface name = false ->
  get_scan_targets_from_interface nif = iface_targets nif name
  /\ forall ifcs,
      get_scan_targets_from_interface
        {| gateways := gateways nif; interfaces := ifcs;
           ifaddresses := ifaddresses nif |}
      = get_scan_targets_from_interface nif.
Proof.
  intros G Hn V.
  assert (E : forall ifcs,
             get_scan_targets_from_interface
               {| gateways := gateways nif; interfaces := ifcs;
                  ifaddresses := ifaddresses nif |}
             = iface_targets nif name).
  { intros ifcs. unfold get_scan_targets_from_interface, iface_targets.
    cbn [gateways interfaces ifaddresses]. rewrite G, V.
    destruct name as [|c n]; [contradiction|]. reflexivity. }
  split.
  - rewrite <- (E (interfaces nif)). now destruct nif.
  - intros ifcs. rewrite E, <- (E (interfaces nif)). now destruct nif.
Qed.

Lemma default_interface_first_witness :
  get_scan_targets_from_interface netifaces_half
  = iface_targets netifaces_half (py "Ethernet").
Proof.
  apply (@default_interface_first netifaces_half (py "192.168.1.1") (py "Ethernet"));
    [reflexivity|discriminate|vm_compute; reflexivity].
Defined.

(** X15. Without such a default, the targets are those of the first listed
    interface that is not named like a VPN and whose first IPv4 address is
    not a loopback one, even when a VPN carries the default route. *)
Theorem first_usable_interface (nif : NetIfaces) (before after : list str)
        (ifc : str) :
  no_plain_default nif ->
  interfaces nif = before ++ ifc :: after ->
  Forall (passed_over nif) before -> usable nif ifc -> ifc <> [] ->
  get_scan_targets_from_interface nif = iface_targets nif ifc.
Proof.
  intros D I Hb Hu Hn.
  pose proof (first_usable_found after Hb Hu) as F. rewrite <- I in F.
  unfold get_scan_targets_from_interface, iface_targets, no_plain_default in *.
  destruct ifc as [|c n]; [contradiction|].
  destruct (gateways nif) as [[gw name]|].
  - destruct D as [V| ->].
    + rewrite V. cbn [named]. rewrite F. reflexivity.
    + cbn [_is_vpn_iface named]. rewrite F. reflexivity.
  - cbn [named]. rewrite F. reflexivity.
Qed.

Lemma first_usable_interface_witness :
  get_scan_targets_from_interface netifaces_vpn
  = iface_targets netifaces_vpn (py "Ethernet").
Proof.
  apply (@first_usable_interface netifaces_vpn
           [py "OpenVPN TAP"; py "Loopback"] [] (py "Ethernet")).
  - left. vm_compute. reflexivity.
  - reflexivity.
  - constructor; [left; vm_compute; reflexivity|].
    constructor; [|constructor].
    right. eexists. split; [vm_compute; reflexivity|]. vm_compute. reflexivity.
  - split; [vm_compute; reflexivity|].
    do 4 eexists. split; [vm_compute; reflexivity|].
    split; [reflexivity|]. vm_compute. reflexivity.
  - discriminate.
Defined.

(** X16. When the loop finds no interface, the default gateway's interface
    is taken after all, whatever its name; without a default gateway, or with
    one of empty name, there are no targets. *)
Theorem no_usable_interface (nif : NetIfaces) :
  Forall (passed_over nif) (interfaces nif) ->
  match gateways nif with
  | Some (_, c :: n) =>
      get_scan_targets_from_interface nif = iface_targets nif (c :: n)
  | _ => get_scan_targets_from_interface nif = None
  end.
Proof.
  intros H. pose proof (first_usable_passed H) as F.
  unfold get_scan_targets_from_interface, iface_targets.
  destruct (gateways nif) as [[gw [|c n]]|].
  - cbn [_is_vpn_iface named]. rewrite F. reflexivity.
  - destruct (_is_vpn_iface (c :: n)); cbn [named]; rewrite ?F; reflexivity.
  - cbn [named]. rewrite F. reflexivity.
Qed.

Lemma no_usable_interface_witness :
  Forall (passed_over netifaces_vpn_only) (interfaces netifaces_vpn_only)
  /\ _is_vpn_iface (py "OpenVPN TAP") = true
  /\ get_scan_targets_from_interface netifaces_vpn_only
     = iface_targets netifaces_vpn_only (py "OpenVPN TAP")
  /\ iface_targets netifaces_vpn_only (py "OpenVPN TAP")
     = Some [py "10.8.0.5"; py "10.8.0.6"].
Proof.
  assert (H : Forall (passed_over netifaces_vpn_only)
                     (interfaces netifaces_vpn_only)).
  { constructor; [left; vm_compute; reflexivity|].
    constructor; [|constructor].
    right. eexists. split; [vm_compute; reflexivity|].
    vm_compute. reflexivity. }
  split; [exact H|]. split; [vm_compute; reflexivity|].
  split; [|vm_compute; reflexivity].
  exact (@no_usable_interface netifaces_vpn_only H).
Defined.

(** X17. An exception of [netifaces.ifaddresses] for an interface the loop
    comes to is not passed on: there are no targets. *)
Theorem ifaddresses_failure (nif : NetIfaces) (before after : list str)
        (ifc : str) :
  no_plain_default nif ->
  interfaces nif = before ++ ifc :: after ->
  Forall (passed_over nif) before ->
  _is_vpn_iface ifc = false -> ifaddresses nif ifc = None ->
  get_scan_targets_from_interface nif = None.
Proof.
  intros D I Hb V B.
  assert (F : first_usable nif (interfaces nif) = None).
  { rewrite I, first_usable_app by exact Hb. cbn [first_usable].
    now rewrite V, B. }
  unfold get_scan_targets_from_interface, no_plain_default in *.
  destruct (gateways nif) as [[gw name]|].
  - destruct D as [W| ->].
    + rewrite W. cbn [named]. now rewrite F.
    + cbn [_is_vpn_iface named]. now rewrite F.
  - cbn [named]. now rewrite F.
Qed.

Lemma ifaddresses_failure_witness :
  get_scan_targets_from_interface netifaces_broken = None.
Proof.
  apply (@ifaddresses_failure netifaces_broken [] [] (py "Ethernet")).
  - exact I.
  - reflexivity.
  - constructor.
  - vm_compute. reflexivity.
  - reflexivity.
Defined.

(** ** The entry of a well-formed line (lines 24-34) *)

Lemma rep_greedy (p : ascii -> bool) (a b : str) :
  forall lo hi (k : str -> option groups) g,
    all_in p a -> lo <= List.length a -> within hi (List.length a) ->
    match b with [] => True | c :: _ => p c = false end ->
    k b = Some g -> rep p lo hi (a ++ b) k = Some g.
Proof.
  induction a as [|x a IH]; intros lo hi k g Ha Hlo Hhi Hb Hk.
  - simpl in Hlo. assert (lo = 0) by lia. subst lo. simpl.
    destruct b as [|c b]; simpl; [exact Hk|]. now rewrite Hb.
  - inversion Ha as [|? ? Hx Ha']; subst. simpl.
    assert (Hm : may_take hi = true).
    { destruct hi as [[|h]|]; simpl in *; try reflexivity; lia. }
    rewrite Hx, Hm. simpl.
    rewrite (IH (pred lo) (option_map pred hi) k g); auto.
    + simpl in Hlo. lia.
    + destruct hi as [h|]; simpl in *; [lia|exact I].
Qed.

Lemma rep_no_start (p : ascii -> bool) (lo : nat) (hi : option nat)
      (s : str) (k : str -> option groups) :
  match s with [] => True | c :: _ => p c = false end ->
  rep p (S lo) hi s k = None.
Proof.
  destruct s as [|c s]; simpl; [reflexivity|]. now intros ->.
Qed.

Lemma space_not_digit (c : ascii) : is_space c = true -> is_digit c = false.
Proof. each_char c. Qed.

Lemma mac_char_not_space (c : ascii) : is_mac_char c = true -> is_space c = false.
Proof. each_char c. Qed.

Lemma nonempty_length (s : str) : s <> [] -> 1 <= List.length s.
Proof. destruct s; [contradiction|simpl; lia]. Qed.

(** At the front of a dotted quad, white space and a token, the pattern
    takes exactly them. *)
Lemma match_here_arp (a b c d ws tok post : str) :
  digits a -> digits b -> digits c -> digits d -> blanks ws ->
  mac_token 14 tok -> ends_token post ->
  match_here arp_pattern
    (a ++ py "." ++ b ++ py "." ++ c ++ py "." ++ d ++ ws ++ tok ++ post)
  = Some [a ++ py "." ++ b ++ py "." ++ c ++ py "." ++ d; tok].
Proof.
  intros [Na Ha] [Nb Hb] [Nc Hc] [Nd Hd] [Nw Hw] [Ht Lt] Hp.
  assert (E : a ++ py "." ++ b ++ py "." ++ c ++ py "." ++ d ++ ws ++ tok ++ post
              = (a ++ py "." ++ b ++ py "." ++ c ++ py "." ++ d)
                  ++ ws ++ tok ++ post)
    by (rewrite <- !app_assoc; reflexivity).
  unfold match_here, arp_pattern, Plus. cbn [exec].
  apply rep_greedy;
    [exact Ha|now apply nonempty_length|exact I|reflexivity|cbv beta].
  rewrite strip_prefix_app.
  apply rep_greedy;
    [exact Hb|now apply nonempty_length|exact I|reflexivity|cbv beta].
  rewrite strip_prefix_app.
  apply rep_greedy;
    [exact Hc|now apply nonempty_length|exact I|reflexivity|cbv beta].
  rewrite strip_prefix_app.
  apply rep_greedy;
    [exact Hd|now apply nonempty_length|exact I| |cbv beta].
  { destruct ws as [|x ws]; [contradiction|]. cbn [app].
    inversion Hw; subst. now apply space_not_digit. }
  apply rep_greedy;
    [exact Hw|now apply nonempty_length|exact I| |cbv beta].
  { destruct tok as [|x tok]; [simpl in Lt; lia|]. cbn [app].
    inversion Ht; subst. now apply mac_char_not_space. }
  apply rep_greedy; [exact Ht|lia|simpl; lia|exact Hp|].
  rewrite firstn_consumed, E, firstn_consumed. reflexivity.
Qed.

Lemma match_here_no_digit (c : ascii) (s : str) :
  is_digit c = false -> match_here arp_pattern (c :: s) = None.
Proof.
  intros H. unfold match_here, arp_pattern, Plus. cbn [exec].
  now apply rep_no_start.
Qed.

Lemma search_skip (pre rest : str) :
  all_in not_digit pre ->
  search arp_pattern (pre ++ rest) = search arp_pattern rest.
Proof.
  induction 1 as [|c pre Hc _ IH]; [reflexivity|].
  cbn [app search]. unfold not_digit in Hc. apply negb_true_iff in Hc.
  now rewrite match_here_no_digit.
Qed.

(** X18. A line made of text without digits, a dotted quad, white space,
    a token of 14 to 17 characters and anything that does not prolong the
    token gives that address and that token, in lower case and with colons:
    what comes later on the line is not looked at. *)
Theorem arp_line_exact (pre ip ws tok post : str) :
  all_in not_digit pre -> dotted_quad ip -> blanks ws ->
  mac_token 14 tok -> ends_token post ->
  arp_line (pre ++ ip ++ ws ++ tok ++ post)
  = Some (ip, replace_char "-" ":" (lower tok)).
Proof.
  intros Hpre (a & b & c & d & -> & Ha & Hb & Hc & Hd) Hws Ht Hp.
  unfold arp_line. rewrite search_skip by exact Hpre.
  rewrite <- !app_assoc.
  pose proof (@match_here_arp a b c d ws tok post Ha Hb Hc Hd Hws Ht Hp) as M.
  destruct (a ++ py "." ++ b ++ py "." ++ c ++ py "." ++ d ++ ws ++ tok ++ post)
    as [|x l] eqn:L; cbn [search]; rewrite M; reflexivity.
Qed.

Lemma arp_line_exact_witness :
  arp_line (py "  " ++ py "192.168.1.10" ++ py "     " ++ py "28-CD-C1-AA-BB-CC"
              ++ py "   dynamic  10.0.0.1 aa-aa-aa-aa-aa-aa")
  = Some (py "192.168.1.10", py "28:cd:c1:aa:bb:cc").
Proof.
  apply (@arp_line_exact (py "  ") (py "192.168.1.10") (py "     ")
           (py "28-CD-C1-AA-BB-CC")
           (py "   dynamic  10.0.0.1 aa-aa-aa-aa-aa-aa")).
  - unfold all_in. repeat constructor.
  - exists (py "192"), (py "168"), (py "1"), (py "10").
    split; [reflexivity|].
    repeat split; try discriminate; unfold all_in; repeat constructor.
  - split; [discriminate|unfold all_in; repeat constructor].
  - split; [unfold all_in; repeat constructor|simpl; lia].
  - reflexivity.
Defined.

(** ** The length of a netmask (lines 137-138) *)

Lemma count_char_app (c : ascii) (s t : str) :
  count_char c (s ++ t) = count_char c s + count_char c t.
Proof. unfold count_char. now rewrite filter_app, length_app. Qed.

Lemma filter_map_length {A B : Type} (f : B -> bool) (g : A -> B) (l : list A) :
  List.length (filter f (map g l))
  = List.length (filter (fun x => f (g x)) l).
Proof.
  induction l as [|x l IH]; simpl; [reflexivity|].
  destruct (f (g x)); simpl; now rewrite IH.
Qed.

Lemma filter_none_length {A : Type} (f : A -> bool) (l : list A) :
  (forall x, f x = false) -> List.length (filter f l) = 0.
Proof.
  intros H. induction l as [|x l IH]; simpl; [reflexivity|]. now rewrite H.
Qed.

(** The bits of [2 * q + b] from the second on are the bits of [q]. *)
Lemma bits_shift (f g : Z -> bool) (b : bool) (n : nat) :
  f 0%Z = b -> (forall k : nat, f (Z.of_nat (S k)) = g (Z.of_nat k)) ->
  List.length (filter f (map Z.of_nat (seq 0 (S n))))
  = (if b then 1 else 0) + List.length (filter g (map Z.of_nat (seq 0 n))).
Proof.
  intros H0 HS. cbn [seq map filter]. change (Z.of_nat 0) with 0%Z.
  rewrite H0, <- seq_shift.
  assert (E : forall l : list nat,
             List.length (filter f (map Z.of_nat (map S l)))
             = List.length (filter g (map Z.of_nat l))).
  { induction l as [|x l IH]; cbn [map filter]; [reflexivity|].
    rewrite HS. destruct (g (Z.of_nat x)); cbn [List.length]; now rewrite IH. }
  destruct b; cbn [List.length]; now rewrite E.
Qed.

Lemma bin_pos_counts_bits (p : positive) :
  forall n : nat,
    (Zpos p < 2 ^ Z.of_nat n)%Z ->
    count_char "1" (bin_pos p)
    = List.length (filter (Z.testbit (Zpos p)) (map Z.of_nat (seq 0 n))).
Proof.
  induction p as [q IH|q IH|]; intros [|n] H;
    try (change (2 ^ Z.of_nat 0)%Z with 1%Z in H; lia);
    rewrite Nat2Z.inj_succ, Z.pow_succ_r in H by lia.
  - cbn [bin_pos]. rewrite count_char_app, (IH n) by lia.
    rewrite (@bits_shift (Z.testbit (Z.pos q~1)) (Z.testbit (Z.pos q)) true n).
    + change (count_char "1" (py "1")) with 1. lia.
    + reflexivity.
    + intros k. rewrite Nat2Z.inj_succ, Pos2Z.inj_xI.
      apply Z.testbit_odd_succ. lia.
  - cbn [bin_pos]. rewrite count_char_app, (IH n) by lia.
    rewrite (@bits_shift (Z.testbit (Z.pos q~0)) (Z.testbit (Z.pos q)) false n).
    + change (count_char "1" (py "0")) with 0. lia.
    + reflexivity.
    + intros k. rewrite Nat2Z.inj_succ, Pos2Z.inj_xO.
      apply Z.testbit_even_succ. lia.
  - rewrite (@bits_shift (Z.testbit 1) (fun _ => false) true n).
    + rewrite filter_none_length by reflexivity. reflexivity.
    + reflexivity.
    + intros k. rewrite Nat2Z.inj_succ.
      change 1%Z with (2 * 0 + 1)%Z.
      rewrite Z.testbit_odd_succ by lia. apply Z.testbit_0_l.
Qed.

(** X19. [_mask_to_prefix] is the number of bits set in the netmask,
    wherever they are: between 0 and 32. *)
Theorem mask_to_prefix_counts_bits (m : Z) :
  (0 <= m < 2 ^ 32)%Z ->
  _mask_to_prefix (dotted m) = Some (set_bits m) /\ set_bits m <= 32.
Proof.
  intros Hm. split.
  - unfold _mask_to_prefix. rewrite ip2int_dotted by exact Hm.
    cbn [option_map]. f_equal. unfold set_bits.
    destruct m as [|p|p]; [reflexivity| |lia].
    cbn [bin]. rewrite count_char_app.
    change (count_char "1" (py "0b")) with 0. cbn [Nat.add].
    apply (@bin_pos_counts_bits p 32). change (Z.of_nat 32) with 32%Z. lia.
  - unfold set_bits.
    etransitivity; [apply filter_length_le|].
    now rewrite length_map, length_seq.
Qed.

Lemma mask_to_prefix_counts_bits_witness :
  _mask_to_prefix (dotted 4278255360) = Some (set_bits 4278255360)
  /\ set_bits 4278255360 <= 32.
Proof.
  apply (@mask_to_prefix_counts_bits 4278255360%Z). lia.
Defined.

(** ** The size and place of the targets (lines 186-204) *)

Local Open Scope Z_scope.

Lemma dotted_of_quad (a b c d : nat) :
  (a <= 255)%nat -> (b <= 255)%nat -> (c <= 255)%nat -> (d <= 255)%nat ->
  dotted (quad_value a b c d) = quad a b c d.
Proof.
  intros Ha Hb Hc Hd. rewrite dotted_quad_value. unfold quad_value.
  change (2 ^ 24) with 16777216. change (2 ^ 16) with 65536.
  change (2 ^ 8) with 256.
  assert (E1 : (Z.of_nat a * 16777216 + Z.of_nat b * 65536 + Z.of_nat c * 256
                + Z.of_nat d) / 16777216 mod 256 = Z.of_nat a)
    by (Z.to_euclidean_division_equations; lia).
  assert (E2 : (Z.of_nat a * 16777216 + Z.of_nat b * 65536 + Z.of_nat c * 256
                + Z.of_nat d) / 65536 mod 256 = Z.of_nat b)
    by (Z.to_euclidean_division_equations; lia).
  assert (E3 : (Z.of_nat a * 16777216 + Z.of_nat b * 65536 + Z.of_nat c * 256
                + Z.of_nat d) / 256 mod 256 = Z.of_nat c)
    by (Z.to_euclidean_division_equations; lia).
  assert (E4 : (Z.of_nat a * 16777216 + Z.of_nat b * 65536 + Z.of_nat c * 256
                + Z.of_nat d) mod 256 = Z.of_nat d)
    by (Z.to_euclidean_division_equations; lia).
  now rewrite E1, E2, E3, E4, !Nat2Z.id.
Qed.

Lemma netmask_facts (n : nat) :
  (24 <= n <= 32)%nat ->
  Z.land (Z.lnot (netmask_of_prefix n)) 0xFFFFFFFF = Z.ones (32 - Z.of_nat n)
  /\ Z.land (netmask_of_prefix n) (Z.ones (32 - Z.of_nat n)) = 0
  /\ Z.lor (netmask_of_prefix n) (Z.ones (32 - Z.of_nat n)) = Z.ones 32.
Proof.
  intros H.
  do 33 (destruct n as [|n];
         [try lia; vm_compute; repeat split; reflexivity|]).
  lia.
Qed.

(** The base of the network and its broadcast address, in arithmetic. *)
Lemma subnet_bounds (ip : Z) (n : nat) :
  0 <= ip < 2 ^ 32 -> (24 <= n <= 32)%nat ->
  let net_base := Z.land ip (netmask_of_prefix n) in
  let bcast :=
    Z.lor net_base (Z.land (Z.lnot (netmask_of_prefix n)) 0xFFFFFFFF) in
  net_base = ip - ip mod 2 ^ (32 - Z.of_nat n)
  /\ bcast = net_base + 2 ^ (32 - Z.of_nat n) - 1.
Proof.
  intros Hi Hn net_base bcast.
  destruct (netmask_facts Hn) as (Eh & Ed & Eo).
  set (m := netmask_of_prefix n) in *. set (h := Z.ones (32 - Z.of_nat n)) in *.
  assert (D1 : Z.land (Z.land ip m) (Z.land ip h) = 0).
  { rewrite Z.land_assoc, <- (Z.land_assoc ip m ip), (Z.land_comm m ip),
      Z.land_assoc, Z.land_diag, <- Z.land_assoc, Ed. apply Z.land_0_r. }
  assert (S1 : Z.land ip m + Z.land ip h = ip).
  { pose proof (Z.add_lor_land (Z.land ip m) (Z.land ip h)) as A.
    rewrite D1, <- Z.land_lor_distr_r, Eo in A.
    rewrite Z.land_ones in A by lia.
    rewrite Z.mod_small in A by lia. lia. }
  assert (Hh : Z.land ip h = ip mod 2 ^ (32 - Z.of_nat n))
    by (unfold h; apply Z.land_ones; lia).
  assert (D2 : Z.land net_base h = 0).
  { unfold net_base. fold m. rewrite <- Z.land_assoc, Ed. apply Z.land_0_r. }
  split; [unfold net_base; fold m; lia|].
  unfold bcast. fold m. rewrite Eh. fold h.
  pose proof (Z.add_lor_land net_base h) as A. rewrite D2 in A.
  assert (Hv : h = 2 ^ (32 - Z.of_nat n) - 1)
    by (unfold h; rewrite Z.ones_equiv; lia).
  lia.
Qed.

Local Close Scope Z_scope.

Lemma scan_targets_of_prefix (a b c d n : nat) :
  a <= 255 -> b <= 255 -> c <= 255 -> d <= 255 -> n <= 32 ->
  let net_base := Z.land (quad_value a b c d) (netmask_of_prefix n) in
  let bcast :=
    Z.lor net_base (Z.land (Z.lnot (netmask_of_prefix n)) 0xFFFFFFFF) in
  scan_targets (quad a b c d) (dotted (netmask_of_prefix n))
  = if 24 <=? n
    then Some (map dotted (range (net_base + 1) bcast))
    else Some (map (fun i => quad a b c i) (seq 1 254)).
Proof.
  intros Ha Hb Hc Hd Hn net_base bcast.
  pose proof (netmask_range Hn) as Rm.
  destruct (dotted_as_quad Rm)
    as (ma & mb & mc & md & (Hma & Hmb & Hmc & Hmd) & Q & V).
  pose proof (mask_to_prefix_contiguous Hn) as P.
  rewrite Q, mask_to_prefix_quad, V in P by assumption.
  apply Some_inj in P. rewrite Q.
  destruct (Nat.leb_spec 24 n) as [Hge|Hlt].
  - rewrite scan_targets_narrow by (rewrite ?V, ?P; assumption).
    now rewrite V.
  - apply scan_targets_wide; rewrite ?V, ?P; assumption.
Qed.

Local Open Scope Z_scope.

Lemma host_part_cases (n : nat) :
  (24 <= n <= 32)%nat ->
  In (2 ^ (32 - Z.of_nat n)) [256; 128; 64; 32; 16; 8; 4; 2; 1].
Proof.
  intros H.
  do 33 (destruct n as [|n]; [try lia; vm_compute; tauto|]).
  lia.
Qed.

Lemma host_in_block (hi d P net_base x : Z) :
  In P [256; 128; 64; 32; 16; 8; 4; 2; 1] -> 0 <= d <= 255 ->
  net_base = (256 * hi + d) - (256 * hi + d) mod P ->
  net_base + 1 <= x < net_base + P - 1 ->
  x = 256 * hi + x mod 256 /\ 1 <= x mod 256 <= 254.
Proof.
  intros HP Hd Hb Hx. simpl in HP.
  repeat (destruct HP as [<-|HP];
          [Z.to_euclidean_division_equations; lia|]).
  destruct HP.
Qed.

Local Close Scope Z_scope.

(** X20. For a netmask of prefix length [n] the number of targets is 254
    up to [n = 24] and [2^(32-n) - 2] from there on: 126 for a /25, 2 for a
    /30, none for a /31 or a /32. *)
Theorem scan_targets_count (a b c d n : nat) (ts : list str) :
  a <= 255 -> b <= 255 -> c <= 255 -> d <= 255 -> n <= 32 ->
  scan_targets (quad a b c d) (dotted (netmask_of_prefix n)) = Some ts ->
  List.length ts
  = if n <=? 24 then 254 else Z.to_nat (2 ^ (32 - Z.of_nat n) - 2).
Proof.
  intros Ha Hb Hc Hd Hn E.
  rewrite scan_targets_of_prefix in E by assumption.
  destruct (Nat.leb_spec 24 n) as [Hge|Hlt].
  - apply Some_inj in E. subst ts. rewrite length_map, range_length.
    destruct (subnet_bounds (ip := quad_value a b c d) (n := n)) as [B1 B2];
      [now apply quad_value_range|lia|].
    rewrite B2.
    destruct (Nat.leb_spec n 24) as [Hle|Hgt].
    + assert (n = 24) by lia. subst n.
      change (2 ^ (32 - Z.of_nat 24))%Z with 256%Z. lia.
    + f_equal. lia.
  - apply Some_inj in E. subst ts. rewrite length_map, length_seq.
    destruct (Nat.leb_spec n 24); [reflexivity|lia].
Qed.

Lemma scan_targets_count_witness :
  exists ts,
    scan_targets (quad 192 168 1 50) (dotted (netmask_of_prefix 30)) = Some ts
    /\ List.length ts = 2.
Proof.
  destruct (scan_targets (quad 192 168 1 50) (dotted (netmask_of_prefix 30)))
    as [ts|] eqn:E; [|vm_compute in E; discriminate].
  exists ts. split; [reflexivity|].
  apply (@scan_targets_count 192 168 1 50 30 ts); try lia. exact E.
Defined.

(** X21. For a netmask of any prefix length every target has the first
    three numbers of the interface's address and a last number from 1 to
    254: the targets never leave the /24 of the address. *)
Theorem scan_targets_within_24 (a b c d n : nat) (ts : list str) (t : str) :
  a <= 255 -> b <= 255 -> c <= 255 -> d <= 255 -> n <= 32 ->
  scan_targets (quad a b c d) (dotted (netmask_of_prefix n)) = Some ts ->
  In t ts ->
  exists i, 1 <= i <= 254 /\ t = quad a b c i.
Proof.
  intros Ha Hb Hc Hd Hn E Hin.
  rewrite scan_targets_of_prefix in E by assumption.
  destruct (Nat.leb_spec 24 n) as [Hge|Hlt]; apply Some_inj in E; subst ts;
    apply in_map_iff in Hin; destruct Hin as (x & <- & Hx).
  - apply range_In in Hx.
    destruct (subnet_bounds (ip := quad_value a b c d) (n := n)) as [B1 B2];
      [now apply quad_value_range|lia|].
    rewrite B2 in Hx.
    destruct (@host_in_block
                (Z.of_nat a * 65536 + Z.of_nat b * 256 + Z.of_nat c)%Z
                (Z.of_nat d) (2 ^ (32 - Z.of_nat n))%Z
                (Z.land (quad_value a b c d) (netmask_of_prefix n)) x)
      as [Ex Hr].
    + apply host_part_cases. lia.
    + lia.
    + rewrite B1. unfold quad_value.
      change (2 ^ 24)%Z with 16777216%Z. change (2 ^ 16)%Z with 65536%Z.
      change (2 ^ 8)%Z with 256%Z.
      replace (Z.of_nat a * 16777216 + Z.of_nat b * 65536 + Z.of_nat c * 256
               + Z.of_nat d)%Z
        with (256 * (Z.of_nat a * 65536 + Z.of_nat b * 256 + Z.of_nat c)
              + Z.of_nat d)%Z by lia.
      reflexivity.
    + lia.
    + exists (Z.to_nat (x mod 256)). split; [lia|].
      rewrite <- dotted_of_quad by lia. f_equal.
      unfold quad_value. rewrite Z2Nat.id by lia.
      change (2 ^ 24)%Z with 16777216%Z. change (2 ^ 16)%Z with 65536%Z.
      change (2 ^ 8)%Z with 256%Z. lia.
  - apply in_seq in Hx. exists x. split; [lia|reflexivity].
Qed.

Lemma scan_targets_within_24_witness :
  exists i, 1 <= i <= 254 /\ py "192.168.1.49" = quad 192 168 1 i.
Proof.
  apply (@scan_targets_within_24 192 168 1 50 30
           [py "192.168.1.49"; py "192.168.1.50"] (py "192.168.1.49"));
    try lia; [vm_compute; reflexivity|now left].
Defined.

(** ** What the parser and the report hand on *)

Lemma arp_lines_well_formed (ls : list str) :
  Forall well_formed_entry (arp_lines ls)
  /\ List.length (arp_lines ls) <= List.length ls.
Proof.
  induction ls as [|l ls [IH1 IH2]]; simpl; [split; [constructor|lia]|].
  destruct (arp_line l) as [[ip mac]|] eqn:E; [|split; [exact IH1|lia]].
  split; [|simpl; lia]. constructor; [|exact IH1].
  apply arp_line_sound in E.
  destruct E as (pre & ws & tok & post & _ & Hq & _ & [Ht Hl] & ->).
  unfold well_formed_entry. cbn [fst snd].
  split; [exact Hq|]. split; [now apply canonical_mac|].
  unfold replace_char, lower. now rewrite !length_map.
Qed.

(** X22. Whatever [arp -a] printed, or if it failed, every entry of
    [get_arp_entries] is a dotted quad with an address of 14 to 17 characters
    among [0-9a-f:], and there is at most one entry for each line. *)
Theorem get_arp_entries_well_formed (arp : cmd_result) :
  Forall well_formed_entry (get_arp_entries arp)
  /\ match arp with
     | Ok out => List.length (get_arp_entries arp) <= List.length (splitlines out)
     | Failed => get_arp_entries arp = []
     end.
Proof.
  destruct arp as [out|]; simpl; [apply arp_lines_well_formed|].
  split; [constructor|reflexivity].
Qed.

Lemma match_entries_In (rs : rules) (es : list entry) (device ip mac : str) :
  In (device, ip, mac) (match_entries rs es) ->
  In (ip, mac) es /\ classify mac rs = Some device.
Proof.
  induction es as [|[ip0 mac0] es IH]; simpl; [tauto|].
  destruct (classify mac0 rs) as [d0|] eqn:C.
  - intros [E|H]; [injection E as -> -> ->; auto|].
    destruct (IH H); auto.
  - intros H. destruct (IH H); auto.
Qed.

Lemma classify_In (mac : str) (rs : rules) (device : str) :
  classify mac rs = Some device -> In device (map snd rs).
Proof.
  intros H. apply classify_some in H.
  destruct H as (before & pref & after & -> & _).
  rewrite map_app. apply in_or_app. right. now left.
Qed.

Lemma snd_main (w : World) :
  snd (main w) = match_entries mac_device_map (get_arp_entries (last_reading w)).
Proof.
  unfold main, last_reading, active_matches.
  destruct (passive_matches w) as [|m ms] eqn:E; cbn [snd]; [reflexivity|].
  now rewrite <- E.
Qed.

(** X23. Every match a run reports is an entry of the last reading of the
    cache, the second one if there was a sweep, under the device of the
    first rule of the table that matches its address; so it names a device
    of the table. *)
Theorem main_reports_last_reading (w : World) (device ip mac : str) :
  In (device, ip, mac) (snd (main w)) ->
  In (ip, mac) (get_arp_entries (last_reading w))
  /\ classify mac mac_device_map = Some device
  /\ In device (map snd mac_device_map)
  /\ well_formed_entry (ip, mac).
Proof.
  rewrite snd_main. intros H. apply match_entries_In in H.
  destruct H as [Hin C]. split; [exact Hin|]. split; [exact C|].
  split; [now apply (classify_In mac)|].
  assert (F : Forall well_formed_entry (get_arp_entries (last_reading w))).
  { destruct (last_reading w) as [out|]; simpl;
      [apply arp_lines_well_formed|constructor]. }
  rewrite Forall_forall in F. now apply F.
Qed.

Lemma main_reports_last_reading_witness :
  In (py "192.168.1.10", py "28:cd:c1:aa:bb:cc")
     (get_arp_entries (last_reading world_cached))
  /\ classify (py "28:cd:c1:aa:bb:cc") mac_device_map = Some (py "RaspberryPi").
Proof.
  destruct (@main_reports_last_reading world_cached (py "RaspberryPi")
              (py "192.168.1.10") (py "28:cd:c1:aa:bb:cc"))
    as (H1 & H2 & _); [vm_compute; left; reflexivity|].
  split; assumption.
Defined.
